(** * Similarity grouping of attractions

    A shallow embedding of [attractions_similarity_updater.py]: the pair
    enumeration ([_pairs_df_model]), the dense matrix view
    ([similarity_matrix]), the grouping loop ([_groups_idx]), the labelling of
    groups with fresh identifiers ([_groups_df]) and the driver
    ([compute_similarity_groups]).

    What is outside the module is taken as data:
    - the text preprocessing and the sentence embedding are not modelled; the
      driver receives the ['uuid'] column of the preprocessed frame (rows are
      labelled [0 .. n-1]) and the entries of [util.cos_sim(embeddings,
      embeddings)] as a function of two row numbers;
    - scores are rationals: only their order is used by the code;
    - [uuid.uuid4()] is a numbered supply of strings, the [k]-th call of a run
      returning [uuid4 k];
    - a pandas frame is a record of optional columns, an absent column being
      [None]; looking up an absent column or row label raises [KeyError]. *)

From Stdlib Require Import QArith Lqa Lia Sorted Permutation.
From stdpp Require Import gmap strings pretty list sorting.

Local Open Scope nat_scope.

(** ** Exceptions and the result of a call *)

Inductive key :=
  | Column (name : string)
  | Label (row : nat).

Inductive exn :=
  | KeyError (k : key).

Inductive py (A : Type) :=
  | Return (a : A)
  | Raise (e : exn).
Arguments Return {A} a.
Arguments Raise {A} e.

#[global] Instance py_ret : MRet py := @Return.
#[global] Instance py_bind : MBind py := λ A B f m,
  match m with
  | Return a => f a
  | Raise e => Raise e
  end.

(** [for x in xs: body], the body threading a state and possibly raising. *)
Fixpoint for_each {S A : Type} (xs : list A) (body : S → A → py S) (s : S) : py S :=
  match xs with
  | [] => Return s
  | x :: xs' => s' ← body s x; for_each xs' body s'
  end.

(** [range(a, b)]; [range(b)] is [range 0 b]. A negative bound, as in
    [range(len(x) - 1)] on an empty [x], gives the empty range, which the
    truncated subtraction of [nat] gives as well. *)
Definition range (a b : nat) : list nat := seq a (b - a).

(** ** Scores *)

#[global] Instance Qlt_dec (x y : Q) : Decision (x < y)%Q :=
  match Qlt_le_dec x y with
  | left H => left H
  | right H => right (Qle_not_lt _ _ H)
  end.

Definition SIMILARITY_THRESHOLD : Q := 65 # 100.

(** The square tensor returned by [util.cos_sim]: [len(t)] and [t[i][j]]. *)
Record Tensor := { t_len : nat; t_at : nat → nat → Q }.

(** ** Frames of pairs *)

(** One dictionary [{'index': [i, j], 'score': s}]. *)
Record pair := { p_index : nat * nat; p_score : Q }.

Record DataFrame := {
  col_index : option (list (nat * nat));
  col_score : option (list Q);
  col_ind1 : option (list nat);
  col_ind2 : option (list nat) }.

(** [df[name]] *)
Definition getitem {A : Type} (col : option (list A)) (name : string) : py (list A) :=
  match col with
  | Some v => Return v
  | None => Raise (KeyError (Column name))
  end.

(** [pd.DataFrame(records)]: the columns are the keys of the records, so an
    empty list of records gives a frame without columns. *)
Definition pd_DataFrame (pairs : list pair) : DataFrame :=
  match pairs with
  | [] => {| col_index := None; col_score := None; col_ind1 := None; col_ind2 := None |}
  | _ :: _ => {| col_index := Some (p_index <$> pairs); col_score := Some (p_score <$> pairs);
                 col_ind1 := None; col_ind2 := None |}
  end.

(** Selection of the entries of a column at the [True] positions of a mask. *)
Fixpoint select {A : Type} (mask : list bool) (v : list A) : list A :=
  match mask, v with
  | b :: mask', x :: v' => if b then x :: select mask' v' else select mask' v'
  | _, _ => []
  end.

(** [df[mask]] *)
Definition getitem_mask (df : DataFrame) (mask : list bool) : DataFrame :=
  {| col_index := select mask <$> col_index df;
     col_score := select mask <$> col_score df;
     col_ind1 := select mask <$> col_ind1 df;
     col_ind2 := select mask <$> col_ind2 df |}.

(** The rows of a frame that has both columns, as dictionaries. *)
Definition records (df : DataFrame) : list pair :=
  match col_index df, col_score df with
  | Some ix, Some sc => zip_with Build_pair ix sc
  | _, _ => []
  end.

(** ** [_pairs_df_model] *)

(** [sorted(pairs, key=lambda x: x['score'], reverse=True)]: the sort is
    stable, also with [reverse=True], so records of equal score keep the order
    they were appended in. *)
Fixpoint insert_desc (x : pair) (l : list pair) : list pair :=
  match l with
  | [] => [x]
  | y :: l' =>
      if decide (p_score x < p_score y)%Q then y :: insert_desc x l' else x :: y :: l'
  end.

Definition sorted_reverse (pairs : list pair) : list pair := foldr insert_desc [] pairs.

Definition enumerate_pairs (cosine_scores : Tensor) : list pair :=
  fold_left (λ pairs i,
    fold_left (λ pairs j,
      pairs ++ [ {| p_index := (i, j); p_score := t_at cosine_scores i j |} ])
      (range (i + 1) (t_len cosine_scores)) pairs)
    (range 0 (t_len cosine_scores - 1)) [].

Definition _pairs_df_model (cosine_scores : Tensor) : py DataFrame :=
  let pairs := enumerate_pairs cosine_scores in
  let pairs := sorted_reverse pairs in
  let pairs_df := pd_DataFrame pairs in
  index ← getitem (col_index pairs_df) "index";
  let pairs_df :=
    {| col_index := col_index pairs_df; col_score := col_score pairs_df;
       col_ind1 := Some (fst <$> index); col_ind2 := col_ind2 pairs_df |} in
  index ← getitem (col_index pairs_df) "index";
  let pairs_df :=
    {| col_index := col_index pairs_df; col_score := col_score pairs_df;
       col_ind1 := col_ind1 pairs_df; col_ind2 := Some (snd <$> index) |} in
  Return pairs_df.

(** ** [similarity_matrix] *)

Inductive cell :=
  | NaN
  | IntCell (z : Z)
  | ScoreCell (values : list Q).

(** The square frame of cells, created without data. *)
Record Matrix := { m_shape : nat; m_cells : gmap (nat * nat) cell }.

Definition m_get (m : Matrix) (i j : nat) : cell := default NaN (m_cells m !! (i, j)).

(** [m.iloc[i][j] = c] *)
Definition m_set (m : Matrix) (i j : nat) (c : cell) : Matrix :=
  {| m_shape := m_shape m; m_cells := <[(i, j) := c]> (m_cells m) |}.

(** Of [reduced_df] only [reduced_df.shape[0]] is used: it is the argument [n]. *)
Definition similarity_matrix (similarity_idx_df : DataFrame) (n : nat) : py Matrix :=
  let similarity_matrix := {| m_shape := n; m_cells := ∅ |} in
  for_each (range 0 n) (λ similarity_matrix i,
    for_each (range i n) (λ similarity_matrix j,
      if decide (j = i) then
        let similarity_matrix := m_set similarity_matrix i j (IntCell 1) in
        Return (m_set similarity_matrix j i (IntCell 1))
      else
        ind1 ← getitem (col_ind1 similarity_idx_df) "ind1";
        ind2 ← getitem (col_ind2 similarity_idx_df) "ind2";
        let mask := zip_with (λ a b, bool_decide (a = i) && bool_decide (b = j)) ind1 ind2 in
        similarity_score ← getitem (col_score (getitem_mask similarity_idx_df mask)) "score";
        let similarity_matrix := m_set similarity_matrix i j (ScoreCell similarity_score) in
        Return (m_set similarity_matrix j i (ScoreCell similarity_score)))
      similarity_matrix)
    similarity_matrix.

(** ** [_groups_idx] *)

(** [set(idx)] for [idx = [i, j]] *)
Definition set_of (idx : nat * nat) : gset nat := {[ idx.1; idx.2 ]}.

(** [l.remove(x)]: the first element equal to [x] goes. (The element is always
    present where the code calls it.) *)
Fixpoint list_remove (x : gset nat) (l : list (gset nat)) : list (gset nat) :=
  match l with
  | [] => []
  | y :: l' => if decide (y = x) then l' else y :: list_remove x l'
  end.

(** The state of [for group in sets_list] while its body changes [sets_list]:
    the list as it stands, the position the list iterator will read next,
    and the two locals. *)
Record scan_state := {
  s_sets_list : list (gset nat);
  s_pos : nat;
  s_first_match : gset nat;
  s_was_selected : bool }.

(** The iterator stops as soon as its position is past the end of the list
    as it is then. Each turn advances the position and never lengthens the
    list, so [length sets_list - pos] turns are enough ([scan_fuel]). *)
Fixpoint scan (fuel : nat) (idx : nat * nat) (st : scan_state) : scan_state :=
  match fuel with
  | 0 => st
  | S fuel' =>
      match s_sets_list st !! s_pos st with
      | None => st
      | Some group =>
          let intersec := set_of idx ∩ group in
          if decide (0 < size intersec) then
            let group := group ∪ set_of idx in
            let sets_list := <[s_pos st := group]> (s_sets_list st) in
            let first_match := s_first_match st ∪ group in
            let sets_list := list_remove group sets_list in
            scan fuel' idx
              {| s_sets_list := sets_list; s_pos := S (s_pos st);
                 s_first_match := first_match; s_was_selected := true |}
          else
            scan fuel' idx
              {| s_sets_list := s_sets_list st; s_pos := S (s_pos st);
                 s_first_match := s_first_match st; s_was_selected := s_was_selected st |}
      end
  end.

(** The body of [for idx in similarity_df["index"].values]. *)
Definition add_pair (sets_list : list (gset nat)) (idx : nat * nat) : list (gset nat) :=
  let st := scan (length sets_list) idx
              {| s_sets_list := sets_list; s_pos := 0;
                 s_first_match := ∅; s_was_selected := false |} in
  let sets_list := s_sets_list st in
  let sets_list :=
    if decide (0 < size (s_first_match st)) then sets_list ++ [s_first_match st]
    else sets_list in
  if s_was_selected st then sets_list else sets_list ++ [set_of idx].

Definition group_pairs (index : list (nat * nat)) : list (gset nat) :=
  fold_left add_pair index [].

Definition _groups_idx (similarity_df : DataFrame) : py (list (gset nat)) :=
  index ← getitem (col_index similarity_df) "index";
  Return (group_pairs index).

(** ** [_groups_df] *)

(** A cell of the ['similarity_uuid'] column: the initial [0] or a string. *)
Inductive value :=
  | VInt (z : Z)
  | VStr (s : string).

(** A row of [df_above_threshold]: its label, ['id'] and ['similarity_uuid']. *)
Record row := { r_label : nat; r_id : string; r_similarity_uuid : value }.

(** One dictionary of the result. *)
Record assignment := { id : string; similarity_uuid : value }.

(** [np.array([idx for idx in col]).ravel()] *)
Definition ravel (index : list (nat * nat)) : list nat :=
  flat_map (λ idx, [idx.1; idx.2]) index.

(** [df.loc[labels][['uuid']]] with the column renamed to ['id'] and the
    column ['similarity_uuid'] set to [0]: a label that is not in the frame
    raises [KeyError]. *)
Definition loc_rows (df : list string) (labels : list nat) : py (list row) :=
  for_each labels (λ rows l,
    match df !! l with
    | Some u => Return (rows ++ [ {| r_label := l; r_id := u; r_similarity_uuid := VInt 0 |} ])
    | None => Raise (KeyError (Label l))
    end) [].

(** [col.loc[list(group)] = v]: every label of the group must be a label of
    the frame. *)
Definition loc_assign (rows : list row) (group : gset nat) (v : value) : py (list row) :=
  match filter (λ l, l ∉ (r_label <$> rows)) (elements group) with
  | l :: _ => Raise (KeyError (Label l))
  | [] =>
      Return ((λ r, if decide (r_label r ∈ group)
                    then {| r_label := r_label r; r_id := r_id r; r_similarity_uuid := v |}
                    else r) <$> rows)
  end.

(** The frame and the number of identifiers drawn so far. *)
Definition label_groups (uuid4 : nat → string) (groups_list : list (gset nat))
    (rows : list row) : py (list row * nat) :=
  for_each groups_list (λ '(rows, k) group,
    rows ← loc_assign rows group (VStr (uuid4 k));
    Return (rows, S k)) (rows, 0).

Definition to_dict (rows : list row) : list assignment :=
  (λ r, {| id := r_id r; similarity_uuid := r_similarity_uuid r |}) <$> rows.

(** The order in which a Python set of integers is listed is an artefact of
    its hash table; [elements] stands for it, and no statement below depends
    on the order. *)
Definition _groups_df (uuid4 : nat → string) (similarity_df_above_threshold : DataFrame)
    (df : list string) : py (list assignment) :=
  index ← getitem (col_index similarity_df_above_threshold) "index";
  let above_threshold_idx : list nat := elements (list_to_set (C := gset nat) (ravel index)) in
  df_above_threshold ← loc_rows df above_threshold_idx;
  groups_list ← _groups_idx similarity_df_above_threshold;
  '(df_above_threshold, _) ← label_groups uuid4 groups_list df_above_threshold;
  Return (to_dict df_above_threshold).

(** ** [compute_similarity_groups] *)

(** The body of the driver, with the module constant as a parameter. *)
Definition similarity_groups_at (threshold : Q) (uuid4 : nat → string)
    (df_reduced : list string) (cos_sim : nat → nat → Q) : py (list assignment) :=
  let cosine_scores := {| t_len := length df_reduced; t_at := cos_sim |} in
  similarity_df ← _pairs_df_model cosine_scores;
  score ← getitem (col_score similarity_df) "score";
  let similarity_df_above_threshold :=
    getitem_mask similarity_df ((λ s, bool_decide (threshold < s)%Q) <$> score) in
  _groups_df uuid4 similarity_df_above_threshold df_reduced.

Definition compute_similarity_groups :
    (nat → string) → list string → (nat → nat → Q) → py (list assignment) :=
  similarity_groups_at SIMILARITY_THRESHOLD.

(** ** Calling [compute_similarity_groups] *)

(** A value passed in a call: a list of attractions, given as what the stages
    outside the module make of it (the ['uuid'] column of the preprocessed
    frame and the cosines of the embeddings), or a number. *)
Inductive pyvalue :=
  | Attractions (uuid : list string) (cos_sim : nat → nat → Q)
  | Float (x : Q).

(** Python's binding of the arguments of a call to the parameters of a [def]
    that has plain parameters without defaults: the positional arguments go
    to the parameters in order, and there may not be more of them than
    parameters; a keyword argument must name a parameter, and one that has no
    value yet; in the end every parameter must have a value. [None] is the
    [TypeError] raised otherwise, before the body runs. *)
Fixpoint bind_keywords (params : list string) (bound : list (string * pyvalue))
    (kwargs : list (string * pyvalue)) : option (list (string * pyvalue)) :=
  match kwargs with
  | [] => Some bound
  | (name, v) :: kwargs' =>
      if decide (name ∈ params) then
        if decide (name ∈ bound.*1) then None
        else bind_keywords params (bound ++ [(name, v)]) kwargs'
      else None
  end.

Definition bind_arguments (params : list string) (args : list pyvalue)
    (kwargs : list (string * pyvalue)) : option (list (string * pyvalue)) :=
  if decide (length params < length args) then None
  else
    match bind_keywords params (zip params args) kwargs with
    | None => None
    | Some bound =>
        if decide (Forall (λ p, p ∈ bound.*1) params) then Some bound else None
    end.

Fixpoint bound_value (name : string) (bound : list (string * pyvalue)) : option pyvalue :=
  match bound with
  | [] => None
  | (name', v) :: bound' => if decide (name' = name) then Some v else bound_value name bound'
  end.

(** How a call ends: the arguments do not fit the signature; or the body runs
    on a value that is not a list of attractions, which the stages outside
    the module reject or not (not modelled); or the body runs on attractions. *)
Inductive outcome :=
  | TypeError
  | NotModelled
  | Completed (result : py (list assignment)).

(** [def compute_similarity_groups(attractions)]: one parameter. *)
Definition call_compute_similarity_groups (uuid4 : nat → string)
    (args : list pyvalue) (kwargs : list (string * pyvalue)) : outcome :=
  match bind_arguments ["attractions"] args kwargs with
  | None => TypeError
  | Some bound =>
      match bound_value "attractions" bound with
      | Some (Attractions uuid cos_sim) =>
          Completed (compute_similarity_groups uuid4 uuid cos_sim)
      | _ => NotModelled
      end
  end.

(** ** [main] *)

Definition QUEUE_URL : string := "url".

(** What [except Exception] may catch: an exception of this module, or one
    raised by the code outside it (the data base, the preprocessing, the
    sentence model, the queue). *)
Inductive exception :=
  | Raised (e : exn)
  | Foreign (description : string).

(** The dictionary [main] returns; ["details"] is there on failure only. *)
Record response := {
  statusCode : nat;
  message : string;
  details : option exception }.

(** The collaborators of one run of [main]:
    - [prepared]: what [DataBase()], [db._fetch_attraction_ids_map()], the
      preprocessing and the embedding come to, an exception or the ['uuid']
      column of the preprocessed frame with the cosines of the embeddings;
    - [uuid4_supply]: the identifiers [uuid.uuid4()] returns, in order;
    - [SQSQueue_init url]: the exception [SQSQueue(url)] raises, if any;
    - [queue_send messages message_type batch]: the exception
      [queue.send_messages] raises, if any. *)
Record collaborators := {
  prepared : exception + (list string * (nat → nat → Q));
  uuid4_supply : nat → string;
  SQSQueue_init : string → option exception;
  queue_send : list assignment → string → nat → option exception }.

(** A call of [send_messages] that was made. *)
Record sent := {
  sent_url : string;
  sent_messages : list assignment;
  sent_type : string;
  sent_batch : nat }.

Definition failure (e : exception) : response :=
  {| statusCode := 404; message := "Unable to compute  similarity data";
     details := Some e |}.

Definition success : response :=
  {| statusCode := 200; message := "updates  were successfully sent to queue";
     details := None |}.

(** The response, and the calls of [send_messages] made during the run. *)
Definition main (env : collaborators) : response * list sent :=
  match prepared env with
  | inl e => (failure e, [])
  | inr (df_reduced, cos_sim) =>
      match compute_similarity_groups (uuid4_supply env) df_reduced cos_sim with
      | Raise e => (failure (Raised e), [])
      | Return similarity_updates =>
          match SQSQueue_init env QUEUE_URL with
          | Some e => (failure e, [])
          | None =>
              let call := {| sent_url := QUEUE_URL; sent_messages := similarity_updates;
                             sent_type := "similarity"; sent_batch := 50 |} in
              match queue_send env similarity_updates "similarity" 50 with
              | Some e => (failure e, [call])
              | None => (success, [call])
              end
          end
      end
  end.

(** ** Notions used in the statements *)

(** The order in which [_pairs_df_model] appends the pairs. *)
Definition lex_lt (a b : nat * nat) : Prop := a.1 < b.1 ∨ (a.1 = b.1 ∧ a.2 < b.2).

(** [p] may stand before [q] in a list sorted by score, highest first, with
    pairs of equal score in the order of their indices. *)
Definition before (p q : pair) : Prop :=
  (p_score q < p_score p)%Q ∨ ((p_score p == p_score q)%Q ∧ lex_lt (p_index p) (p_index q)).

(** The pairs appended by one turn of the outer loop of [_pairs_df_model]. *)
Definition row_pairs (cosine_scores : Tensor) (i : nat) : list pair :=
  (λ j, {| p_index := (i, j); p_score := t_at cosine_scores i j |})
    <$> range (i + 1) (t_len cosine_scores).

(** The frame [_pairs_df_model] builds from a non-empty list of records. *)
Definition pairs_frame (pairs : list pair) : DataFrame :=
  {| col_index := Some (p_index <$> pairs); col_score := Some (p_score <$> pairs);
     col_ind1 := Some (fst <$> (p_index <$> pairs));
     col_ind2 := Some (snd <$> (p_index <$> pairs)) |}.

(** The scores [similarity_matrix] finds for the row [ind1 = i, ind2 = j]. *)
Definition stored_scores (ind1 ind2 : list nat) (score : list Q) (i j : nat) : list Q :=
  select (zip_with (λ a b, bool_decide (a = i) && bool_decide (b = j)) ind1 ind2) score.

(** The cell [similarity_matrix] writes at row [a], column [b]. *)
Definition expected_cell (ind1 ind2 : list nat) (score : list Q) (a b : nat) : cell :=
  if decide (a = b) then IntCell 1
  else ScoreCell (stored_scores ind1 ind2 score (a `min` b) (a `max` b)).

(** The matrix after the turns [(i, j)] of the list [visited]. *)
Definition written (ind1 ind2 : list nat) (score : list Q) (n : nat)
    (visited : list (nat * nat)) (m : Matrix) : Prop :=
  m_shape m = n ∧
  ∀ a b, m_cells m !! (a, b)
         = if decide ((a `min` b, a `max` b) ∈ visited)
           then Some (expected_cell ind1 ind2 score a b) else None.

(** The turns of the inner loop of [similarity_matrix] in row [i]. *)
Definition row_turns (n i : nat) : list (nat * nat) := (λ j, (i, j)) <$> range i n.

(** The state in which [for group in sets_list] starts. *)
Definition scan_init (sets_list : list (gset nat)) : scan_state :=
  {| s_sets_list := sets_list; s_pos := 0; s_first_match := ∅; s_was_selected := false |}.

(** The two ways a turn of the loop changes the state. *)
Definition scan_hit (idx : nat * nat) (st : scan_state) (group : gset nat) : scan_state :=
  {| s_sets_list :=
       list_remove (group ∪ set_of idx) (<[s_pos st := group ∪ set_of idx]> (s_sets_list st));
     s_pos := S (s_pos st);
     s_first_match := s_first_match st ∪ (group ∪ set_of idx);
     s_was_selected := true |}.

Definition scan_miss (st : scan_state) : scan_state :=
  {| s_sets_list := s_sets_list st; s_pos := S (s_pos st);
     s_first_match := s_first_match st; s_was_selected := s_was_selected st |}.

(** The number of the last group of the list that holds the label [l], the
    first group of the list having the number [k]. *)
Fixpoint last_group (groups : list (gset nat)) (l k : nat) : option nat :=
  match groups with
  | [] => None
  | group :: groups' =>
      match last_group groups' l (S k) with
      | Some k' => Some k'
      | None => if decide (l ∈ group) then Some k else None
      end
  end.

(** The ['similarity_uuid'] of the row labelled [l] once the groups are
    labelled in turn. *)
Definition assigned (uuid4 : nat → string) (groups : list (gset nat)) (l : nat) : value :=
  match last_group groups l 0 with
  | Some k => VStr (uuid4 k)
  | None => VInt 0
  end.

Definition labelled_row (uuid4 : nat → string) (groups : list (gset nat)) (r : row) : row :=
  {| r_label := r_label r; r_id := r_id r;
     r_similarity_uuid := assigned uuid4 groups (r_label r) |}.

(** The first of the columns [similarity_matrix] reads that the frame lacks. *)
Definition missing_column (df : DataFrame) : option string :=
  match col_ind1 df, col_ind2 df, col_score df with
  | None, _, _ => Some "ind1"
  | Some _, None, _ => Some "ind2"
  | Some _, Some _, None => Some "score"
  | Some _, Some _, Some _ => None
  end.

(** ** Inputs used in the examples *)

(** Four unit vectors of the plane with rational coordinates, at about 0,
    28, 74 and 113 degrees: each is close to the next, and to no other. *)
Definition chain_embeddings : list (Q * Q) :=
  [ (1, 0); (15 # 17, 8 # 17); (7 # 25, 24 # 25); (-5 # 13, 12 # 13) ]%Q.

(** The cosine of two unit vectors is their dot product. *)
Definition chain_cos_sim (i j : nat) : Q :=
  match chain_embeddings !! i, chain_embeddings !! j with
  | Some (x1, y1), Some (x2, y2) => Qred (x1 * x2 + y1 * y2)
  | _, _ => 0
  end.

Definition chain_tensor : Tensor := {| t_len := 4; t_at := chain_cos_sim |}.

(** The frame of the pairs of the chain, and its rows above the threshold. *)
Definition chain_pairs_df : DataFrame :=
  pairs_frame (sorted_reverse (enumerate_pairs chain_tensor)).

Definition chain_above : DataFrame :=
  getitem_mask chain_pairs_df
    ((λ s, bool_decide (SIMILARITY_THRESHOLD < s)%Q) <$> default [] (col_score chain_pairs_df)).

(** The same three rows in the order of their indices. *)
Definition chain_reordered : DataFrame :=
  pairs_frame
    [ {| p_index := (0, 1); p_score := 15 # 17 |};
      {| p_index := (1, 2); p_score := 297 # 425 |};
      {| p_index := (2, 3); p_score := 253 # 325 |} ].

Definition chain_ids : list string := ["A"; "B"; "C"; "D"].

(** A supply of identifiers: the decimal numbers. *)
Definition numbered (k : nat) : string := pretty k.

(** Two pairs without a common index. *)
Definition two_clusters : DataFrame :=
  pairs_frame
    [ {| p_index := (2, 3); p_score := 9 # 10 |};
      {| p_index := (0, 1); p_score := 8 # 10 |} ].

(** A run on the chain with a data base and a queue that work, and a run
    on a single item. *)
Definition chain_run : collaborators :=
  {| prepared := inr (chain_ids, chain_cos_sim); uuid4_supply := numbered;
     SQSQueue_init := λ _, None; queue_send := λ _ _ _, None |}.

Definition single_run : collaborators :=
  {| prepared := inr (["A"], chain_cos_sim); uuid4_supply := numbered;
     SQSQueue_init := λ _, None; queue_send := λ _ _ _, None |}.

(** * Properties *)

(** ** The exception monad and [for_each] *)

(** A loop whose body keeps an invariant, indexed by the elements already
    visited, returns and establishes it for the whole list. *)
Lemma for_each_invariant {S A : Type} (P : list A → S → Prop) (xs : list A)
    (body : S → A → py S) (s : S) :
  P [] s →
  (∀ visited x s, P visited s → x ∈ xs →
     ∃ s', body s x = Return s' ∧ P (visited ++ [x]) s') →
  ∃ s', for_each xs body s = Return s' ∧ P xs s'.
Proof.
  intros Hs Hbody.
  assert (∀ todo visited s, visited ++ todo = xs → P visited s →
            ∃ s', for_each todo body s = Return s' ∧ P xs s') as Hgen.
  { induction todo as [|x todo IH]; intros visited s0 Heq HP; simpl.
    - rewrite app_nil_r in Heq. subst. by exists s0.
    - destruct (Hbody visited x s0 HP) as (s1 & -> & HP1).
      { rewrite <- Heq. set_solver. }
      apply (IH (visited ++ [x])); [|done]. by rewrite <- app_assoc. }
  by apply (Hgen xs []).
Qed.

Lemma elem_of_range (a b x : nat) : x ∈ range a b ↔ a ≤ x < b.
Proof. unfold range. rewrite elem_of_seq. lia. Qed.

(** ** The pairs enumerated by [_pairs_df_model] *)

Section enumeration.
Variable cs : Tensor.

Lemma fold_left_snoc {A B : Type} (f : A → B) (l : list A) (acc : list B) :
  fold_left (λ acc x, acc ++ [f x]) l acc = acc ++ (f <$> l).
Proof.
  revert acc. induction l as [|x l IH]; intros acc; simpl.
  - by rewrite app_nil_r.
  - by rewrite IH, <- app_assoc.
Qed.

Lemma enumerate_pairs_from (rows : list nat) (acc : list pair) :
  fold_left (λ pairs i,
    fold_left (λ pairs j,
      pairs ++ [ {| p_index := (i, j); p_score := t_at cs i j |} ])
      (range (i + 1) (t_len cs)) pairs) rows acc
  = acc ++ flat_map (row_pairs cs) rows.
Proof.
  revert acc. induction rows as [|i rows IH]; intros acc; simpl.
  - by rewrite app_nil_r.
  - rewrite IH, (fold_left_snoc (λ j, {| p_index := (i, j); p_score := t_at cs i j |})).
    by rewrite <- app_assoc.
Qed.

Lemma enumerate_pairs_rows :
  enumerate_pairs cs = flat_map (row_pairs cs) (range 0 (t_len cs - 1)).
Proof. unfold enumerate_pairs. by rewrite enumerate_pairs_from. Qed.

Lemma elem_of_enumerate_pairs (p : pair) :
  p ∈ enumerate_pairs cs ↔
  (p_index p).1 < (p_index p).2 < t_len cs ∧
  p_score p = t_at cs (p_index p).1 (p_index p).2.
Proof.
  rewrite enumerate_pairs_rows, list_elem_of_In, in_flat_map. split.
  - intros (i & Hi & Hp). apply list_elem_of_In, elem_of_range in Hi.
    apply list_elem_of_In, list_elem_of_fmap in Hp as (j & -> & Hj).
    apply elem_of_range in Hj. simpl. split; [lia|done].
  - destruct p as [[i j] s]. simpl. intros [Hij ->]. exists i. split.
    + apply list_elem_of_In, elem_of_range. lia.
    + apply list_elem_of_In, list_elem_of_fmap. exists j. split; [done|].
      apply elem_of_range. lia.
Qed.

Lemma length_row_pairs (i : nat) : length (row_pairs cs i) = t_len cs - (i + 1).
Proof. unfold row_pairs, range. by rewrite length_fmap, length_seq. Qed.

(** After [k] turns of the outer loop: [(n-1) + (n-2) + ... + (n-k)] pairs. *)
Lemma length_enumerate_rows (k : nat) :
  k ≤ t_len cs →
  2 * length (flat_map (row_pairs cs) (seq 0 k)) + k * k + k = 2 * t_len cs * k.
Proof.
  induction k as [|k IH]; intros Hk; [done|].
  rewrite seq_S, flat_map_app, length_app.
  change (flat_map (row_pairs cs) [0 + k]) with (row_pairs cs k ++ []).
  rewrite app_nil_r, length_row_pairs.
  specialize (IH ltac:(lia)). revert IH.
  generalize (length (flat_map (row_pairs cs) (seq 0 k))). intros m IH. nia.
Qed.

Lemma length_enumerate_pairs :
  length (enumerate_pairs cs) = t_len cs * (t_len cs - 1) / 2.
Proof.
  rewrite enumerate_pairs_rows. unfold range. rewrite Nat.sub_0_r.
  pose proof (length_enumerate_rows (t_len cs - 1) ltac:(lia)) as H.
  apply Nat.div_unique_exact; [lia|]. nia.
Qed.

Lemma sorted_seq (a n : nat) : StronglySorted lt (seq a n).
Proof.
  revert a. induction n as [|n IH]; intros a; simpl; constructor; [done|].
  apply Forall_forall. intros x Hx. apply elem_of_seq in Hx. lia.
Qed.

Lemma sorted_row_pairs (i : nat) :
  StronglySorted (λ p q, lex_lt (p_index p) (p_index q)) (row_pairs cs i).
Proof.
  unfold row_pairs, range.
  induction (sorted_seq (i + 1) (t_len cs - (i + 1))) as [|j l _ IH Hj]; simpl;
    constructor; [done|].
  apply Forall_fmap. eapply Forall_impl; [exact Hj|].
  intros j' Hlt. right. simpl. done.
Qed.

Lemma sorted_rows (a k : nat) :
  StronglySorted (λ p q, lex_lt (p_index p) (p_index q))
    (flat_map (row_pairs cs) (seq a k)).
Proof.
  revert a. induction k as [|k IH]; intros a; simpl; [constructor|].
  apply StronglySorted_app_2; [|apply sorted_row_pairs|apply IH].
  intros p q Hp Hq. left.
  apply list_elem_of_fmap in Hp as (j & -> & _).
  apply list_elem_of_In, in_flat_map in Hq as (i & Hi & Hq).
  apply list_elem_of_In, elem_of_seq in Hi.
  apply list_elem_of_In, list_elem_of_fmap in Hq as (j' & -> & _). simpl. lia.
Qed.

(** The pairs are appended in the order of their indices. *)
Lemma sorted_enumerate_pairs :
  StronglySorted (λ p q, lex_lt (p_index p) (p_index q)) (enumerate_pairs cs).
Proof. rewrite enumerate_pairs_rows. apply sorted_rows. Qed.

Lemma enumerate_pairs_nonempty : 2 ≤ t_len cs → enumerate_pairs cs ≠ [].
Proof.
  intros Hn Hnil. pose proof length_enumerate_pairs as Hlen.
  rewrite Hnil in Hlen. change (length []) with 0 in Hlen.
  assert (1 ≤ t_len cs * (t_len cs - 1) / 2) as Hpos;
    [|rewrite <- Hlen in Hpos; lia].
  apply Nat.div_le_lower_bound; [lia|].
  destruct (t_len cs) as [|[|n]]; [lia|lia|]. simpl. nia.
Qed.
End enumeration.

(** ** The stable sort *)

Lemma insert_desc_perm (x : pair) (l : list pair) : insert_desc x l ≡ₚ x :: l.
Proof.
  induction l as [|y l IH]; simpl; [done|].
  case_decide; [|done]. rewrite IH. apply Permutation_swap.
Qed.

Lemma sorted_reverse_perm (l : list pair) : sorted_reverse l ≡ₚ l.
Proof.
  induction l as [|x l IH]; simpl; [done|].
  by rewrite insert_desc_perm, IH.
Qed.

Lemma before_score_le (p q : pair) : before p q → (p_score q <= p_score p)%Q.
Proof. intros [H|[H _]]; [by apply Qlt_le_weak|]. rewrite H. apply Qle_refl. Qed.

(** A record that was appended before all of [l] goes in front of the first
    record whose score is not higher than its own. *)
Lemma insert_desc_sorted (x : pair) (l : list pair) :
  Forall (λ q, lex_lt (p_index x) (p_index q)) l →
  StronglySorted before l → StronglySorted before (insert_desc x l).
Proof.
  intros Hx Hl. induction Hl as [|y l Hl IH Hy]; simpl.
  - repeat constructor.
  - apply Forall_cons in Hx as [Hxy Hx]. case_decide as Hlt.
    + constructor; [by apply IH|].
      rewrite insert_desc_perm. constructor; [by left|done].
    + constructor; [by constructor|].
      assert (p_score y <= p_score x)%Q as Hle by (by apply Qnot_lt_le).
      assert (∀ q, (p_score q <= p_score x)%Q → lex_lt (p_index x) (p_index q) →
                   before x q) as Hb.
      { intros q Hq Hlex. apply Qle_lt_or_eq in Hq as [Hq|Hq]; [by left|].
        right. split; [by symmetry|done]. }
      constructor; [by apply Hb|].
      rewrite Forall_forall in Hx, Hy. apply Forall_forall. intros q Hq.
      apply Hb; [|by apply Hx].
      eapply Qle_trans; [|exact Hle]. by apply before_score_le, Hy.
Qed.

Lemma sorted_reverse_sorted (l : list pair) :
  StronglySorted (λ p q, lex_lt (p_index p) (p_index q)) l →
  StronglySorted before (sorted_reverse l).
Proof.
  induction 1 as [|x l Hl IH Hx]; simpl; [constructor|].
  apply insert_desc_sorted; [|done]. by rewrite sorted_reverse_perm.
Qed.

Lemma sorted_index_NoDup (l : list pair) :
  StronglySorted (λ p q, lex_lt (p_index p) (p_index q)) l → NoDup (p_index <$> l).
Proof.
  induction 1 as [|x l Hl IH Hx]; simpl; constructor; [|done].
  intros Hin. apply list_elem_of_fmap in Hin as (q & Heq & Hq).
  rewrite Forall_forall in Hx. specialize (Hx q Hq). rewrite Heq in Hx.
  unfold lex_lt in Hx. lia.
Qed.

(** ** Frames *)

Lemma records_pairs_frame (l : list pair) : records (pairs_frame l) = l.
Proof.
  unfold records, pairs_frame. simpl.
  induction l as [|[ix s] l IH]; [done|]. rewrite !fmap_cons. simpl. by f_equal.
Qed.

Lemma pairs_df_model_frame (cs : Tensor) :
  2 ≤ t_len cs →
  _pairs_df_model cs = Return (pairs_frame (sorted_reverse (enumerate_pairs cs))).
Proof.
  intros Hn. unfold _pairs_df_model.
  pose proof (enumerate_pairs_nonempty cs Hn) as Hne.
  pose proof (sorted_reverse_perm (enumerate_pairs cs)) as Hperm.
  destruct (sorted_reverse (enumerate_pairs cs)) as [|p l] eqn:Hs.
  - by apply Permutation_nil in Hperm.
  - done.
Qed.

Lemma pairs_df_model_small (cs : Tensor) :
  t_len cs < 2 → _pairs_df_model cs = Raise (KeyError (Column "index")).
Proof.
  intros Hn. unfold _pairs_df_model.
  assert (enumerate_pairs cs = []) as ->; [|done].
  apply length_zero_iff_nil. rewrite length_enumerate_pairs.
  destruct (t_len cs) as [|[|n]]; [done|done|lia].
Qed.

(** C7: for [n ≥ 2] items [_pairs_df_model] returns a frame with exactly
    [n·(n-1)/2] rows, one for each pair of indices [i < j < n] and none twice
    (so no pair of an index with itself), each holding the score
    [cosine_scores[i][j]]; the rows are sorted by score, highest first, and
    rows of equal score are in the order of their indices. *)
Theorem pairs_df_model_all_pairs_sorted (cs : Tensor) :
  2 ≤ t_len cs →
  ∃ df index,
    _pairs_df_model cs = Return df ∧
    col_index df = Some index ∧
    col_ind1 df = Some (fst <$> index) ∧
    col_ind2 df = Some (snd <$> index) ∧
    p_index <$> records df = index ∧
    length index = t_len cs * (t_len cs - 1) / 2 ∧
    NoDup index ∧
    (∀ i j, (i, j) ∈ index ↔ i < j < t_len cs) ∧
    (∀ p, p ∈ records df → p_score p = t_at cs (p_index p).1 (p_index p).2) ∧
    StronglySorted before (records df).
Proof.
  intros Hn.
  pose proof (sorted_reverse_perm (enumerate_pairs cs)) as Hperm.
  exists (pairs_frame (sorted_reverse (enumerate_pairs cs))),
         (p_index <$> sorted_reverse (enumerate_pairs cs)).
  rewrite records_pairs_frame.
  split; [by apply pairs_df_model_frame|].
  do 4 (split; [done|]).
  split; [by rewrite length_fmap, Hperm, length_enumerate_pairs|].
  split; [rewrite Hperm; apply sorted_index_NoDup, sorted_enumerate_pairs|].
  split; [|split].
  - intros i j. rewrite Hperm, list_elem_of_fmap. split.
    + intros (p & Hp & Hin). apply elem_of_enumerate_pairs in Hin as [Hij _].
      by rewrite <- Hp in Hij.
    + intros Hij. exists {| p_index := (i, j); p_score := t_at cs i j |}.
      split; [done|]. by apply elem_of_enumerate_pairs.
  - intros p Hp. rewrite Hperm in Hp. by apply elem_of_enumerate_pairs in Hp as [_ ?].
  - apply sorted_reverse_sorted, sorted_enumerate_pairs.
Qed.

Lemma pairs_df_model_all_pairs_sorted_witness :
  2 ≤ t_len chain_tensor ∧
  ∃ df index,
    _pairs_df_model chain_tensor = Return df ∧
    col_index df = Some index ∧
    col_ind1 df = Some (fst <$> index) ∧
    col_ind2 df = Some (snd <$> index) ∧
    p_index <$> records df = index ∧
    length index = t_len chain_tensor * (t_len chain_tensor - 1) / 2 ∧
    NoDup index ∧
    (∀ i j, (i, j) ∈ index ↔ i < j < t_len chain_tensor) ∧
    (∀ p, p ∈ records df →
       p_score p = t_at chain_tensor (p_index p).1 (p_index p).2) ∧
    StronglySorted before (records df).
Proof.
  split; [simpl; lia|].
  apply (pairs_df_model_all_pairs_sorted chain_tensor). simpl; lia.
Defined.

(** ** The threshold filter *)

(** Selecting both columns by the mask [score > t] filters the rows. *)
Lemma select_above (t : Q) (index : list (nat * nat)) (score : list Q) :
  let mask := (λ s, bool_decide (t < s)%Q) <$> score in
  zip_with Build_pair (select mask index) (select mask score)
  = filter (λ p, (t < p_score p)%Q) (zip_with Build_pair index score).
Proof.
  revert score. induction index as [|ix index IH]; intros [|s score]; simpl; try done.
  rewrite filter_cons. simpl in IH. simpl. case_bool_decide as Hs.
  - rewrite decide_True by done. simpl. by rewrite IH.
  - rewrite decide_False by done. by rewrite IH.
Qed.

Lemma records_getitem_mask_above (t : Q) (df : DataFrame) (score : list Q) :
  col_score df = Some score →
  records (getitem_mask df ((λ s, bool_decide (t < s)%Q) <$> score))
  = filter (λ p, (t < p_score p)%Q) (records df).
Proof.
  intros Hs. unfold records, getitem_mask. simpl. rewrite Hs.
  destruct (col_index df) as [index|]; simpl; [|done].
  apply select_above.
Qed.

(** ** The pass over [sets_list] *)

Lemma list_remove_elem (x y : gset nat) (l : list (gset nat)) :
  y ∈ list_remove x l → y ∈ l.
Proof.
  induction l as [|z l IH]; simpl; [done|].
  case_decide; set_solver.
Qed.

Lemma length_list_remove (x : gset nat) (l : list (gset nat)) :
  length (list_remove x l) ≤ length l.
Proof. induction l as [|z l IH]; simpl; [done|]. case_decide; simpl; lia. Qed.

Lemma union_list_remove (x : gset nat) (l : list (gset nat)) :
  x ∈ l → ⋃ (list_remove x l) ∪ x = ⋃ l.
Proof.
  induction l as [|z l IH]; intros Hx; simpl.
  - by apply elem_of_nil in Hx.
  - case_decide as Hz.
    + subst. set_solver.
    + apply elem_of_cons in Hx as [->|Hx]; [done|].
      simpl. rewrite <- (IH Hx). set_solver.
Qed.

Lemma union_list_insert (l : list (gset nat)) (p : nat) (g s : gset nat) :
  l !! p = Some g → ⋃ (<[p := g ∪ s]> l) = ⋃ l ∪ s.
Proof.
  revert p. induction l as [|z l IH]; intros [|p] Hp; simplify_eq/=.
  - set_solver.
  - rewrite (IH _ Hp). set_solver.
Qed.

(** A property kept by both kinds of turn holds when the pass is over. *)
Lemma scan_invariant (P : scan_state → Prop) (idx : nat * nat) :
  (∀ st group, s_sets_list st !! s_pos st = Some group →
     0 < size (set_of idx ∩ group) → P st → P (scan_hit idx st group)) →
  (∀ st group, s_sets_list st !! s_pos st = Some group →
     ¬ 0 < size (set_of idx ∩ group) → P st → P (scan_miss st)) →
  ∀ fuel st, P st → P (scan fuel idx st).
Proof.
  intros Hhit Hmiss fuel.
  induction fuel as [|fuel IH]; intros st HP; simpl; [done|].
  destruct (s_sets_list st !! s_pos st) as [group|] eqn:Hg; [|done].
  case_decide as Hi.
  - apply IH. by apply (Hhit st group).
  - apply IH. by apply (Hmiss st group).
Qed.

(** The pass stops by itself: with [length sets_list - pos] turns allowed the
    iterator is past the end of the list when [scan] returns, and allowing
    more turns changes nothing. *)
Lemma scan_exhausted (idx : nat * nat) (fuel : nat) (st : scan_state) :
  length (s_sets_list st) - s_pos st ≤ fuel →
  length (s_sets_list (scan fuel idx st)) ≤ s_pos (scan fuel idx st).
Proof.
  revert st. induction fuel as [|fuel IH]; intros st Hfuel; simpl; [lia|].
  destruct (s_sets_list st !! s_pos st) as [group|] eqn:Hg.
  - apply lookup_lt_Some in Hg. case_decide.
    + apply IH. simpl.
      pose proof (length_list_remove (group ∪ set_of idx)
                    (<[s_pos st := group ∪ set_of idx]> (s_sets_list st))) as Hlen.
      rewrite length_insert in Hlen. lia.
    + apply IH. simpl. lia.
  - by apply lookup_ge_None in Hg.
Qed.

Lemma scan_fuel (idx : nat * nat) (fuel fuel' : nat) (st : scan_state) :
  length (s_sets_list st) - s_pos st ≤ fuel → fuel ≤ fuel' →
  scan fuel' idx st = scan fuel idx st.
Proof.
  revert fuel' st. induction fuel as [|fuel IH]; intros fuel' st Hfuel Hle.
  - destruct fuel' as [|fuel']; simpl; [done|].
    rewrite (proj2 (lookup_ge_None _ _)); [done|lia].
  - destruct fuel' as [|fuel']; [lia|]. simpl.
    destruct (s_sets_list st !! s_pos st) as [group|] eqn:Hg; [|done].
    apply lookup_lt_Some in Hg. case_decide.
    + apply IH; [|lia]. simpl.
      pose proof (length_list_remove (group ∪ set_of idx)
                    (<[s_pos st := group ∪ set_of idx]> (s_sets_list st))) as Hlen.
      rewrite length_insert in Hlen. lia.
    + apply IH; [|lia]. simpl. lia.
Qed.

Lemma set_of_size (idx : nat * nat) : idx.1 ≠ idx.2 → size (set_of idx) = 2.
Proof.
  intros Hne. unfold set_of. rewrite size_union by set_solver.
  by rewrite !size_singleton.
Qed.

Lemma set_of_nonempty (idx : nat * nat) : 0 < size (set_of idx).
Proof.
  assert (size ({[idx.1]} : gset nat) ≤ size (set_of idx)) as H.
  { apply subseteq_size. unfold set_of. set_solver. }
  rewrite size_singleton in H. lia.
Qed.

Lemma union_regroup (A B F G S : gset nat) :
  A ∪ (G ∪ S) = B ∪ S → A ∪ (F ∪ (G ∪ S)) = B ∪ F ∪ S.
Proof. set_solver. Qed.

(** What one pass keeps: when a group was selected, the list together with
    [first_match] has gained the two indices of the pair and [first_match]
    holds them; otherwise nothing has changed. *)
Lemma scan_union (idx : nat * nat) (l : list (gset nat)) (fuel : nat) :
  let st := scan fuel idx (scan_init l) in
  if s_was_selected st
  then ⋃ (s_sets_list st) ∪ s_first_match st = ⋃ l ∪ set_of idx ∧
       set_of idx ⊆ s_first_match st
  else s_sets_list st = l ∧ s_first_match st = ∅.
Proof.
  apply (scan_invariant (λ st,
    if s_was_selected st
    then ⋃ (s_sets_list st) ∪ s_first_match st = ⋃ l ∪ set_of idx ∧
         set_of idx ⊆ s_first_match st
    else s_sets_list st = l ∧ s_first_match st = ∅)); [| |done].
  - intros st group Hg _ HP. simpl. split; [|set_solver].
    assert (group ∪ set_of idx ∈ <[s_pos st := group ∪ set_of idx]> (s_sets_list st)) as Hin.
    { apply list_elem_of_lookup. exists (s_pos st).
      apply list_lookup_insert_eq. by eapply lookup_lt_Some. }
    assert (⋃ (s_sets_list st) ∪ s_first_match st ∪ set_of idx = ⋃ l ∪ set_of idx) as <-.
    { destruct (s_was_selected st).
      - destruct HP as [-> _]. set_solver.
      - destruct HP as [-> ->]. set_solver. }
    apply union_regroup.
    by rewrite (union_list_remove _ _ Hin), (union_list_insert _ _ _ _ Hg).
  - intros st group _ _ HP. done.
Qed.

Lemma add_pair_union (l : list (gset nat)) (idx : nat * nat) :
  ⋃ (add_pair l idx) = ⋃ l ∪ set_of idx.
Proof.
  unfold add_pair. fold (scan_init l).
  pose proof (scan_union idx l (length l)) as H. simpl in H.
  destruct (s_was_selected _).
  - destruct H as [H Hsub]. rewrite decide_True.
    + rewrite union_list_app_L. simpl. rewrite <- H. set_solver.
    + pose proof (set_of_nonempty idx). pose proof (subseteq_size _ _ Hsub). lia.
  - destruct H as [-> ->]. rewrite size_empty. rewrite decide_False by lia.
    rewrite union_list_app_L. simpl. set_solver.
Qed.

Lemma group_pairs_union_from (index : list (nat * nat)) (l : list (gset nat)) :
  ⋃ (fold_left add_pair index l) = ⋃ l ∪ list_to_set (ravel index).
Proof.
  revert l. induction index as [|idx index IH]; intros l; simpl.
  - set_solver.
  - rewrite IH, add_pair_union. unfold set_of. set_solver.
Qed.

(** The groups cover exactly the indices that occur in a pair. *)
Lemma group_pairs_union (index : list (nat * nat)) :
  ⋃ (group_pairs index) = list_to_set (ravel index).
Proof. unfold group_pairs. rewrite group_pairs_union_from. set_solver. Qed.

(** *** Groups have at least two members *)

Lemma scan_sizes (idx : nat * nat) (l : list (gset nat)) (fuel : nat) :
  Forall (λ g, 2 ≤ size g) l →
  Forall (λ g, 2 ≤ size g) (s_sets_list (scan fuel idx (scan_init l))).
Proof.
  intros Hl.
  apply (scan_invariant (λ st, Forall (λ g, 2 ≤ size g) (s_sets_list st))); [| |done].
  - intros st group Hg _ HP. simpl. apply Forall_forall. intros g Hin.
    apply list_remove_elem in Hin.
    apply list_elem_of_lookup in Hin as [i Hi].
    destruct (decide (i = s_pos st)) as [->|Hne].
    + rewrite list_lookup_insert_eq in Hi by (by eapply lookup_lt_Some).
      simplify_eq. rewrite Forall_forall in HP.
      assert (2 ≤ size group) by (apply HP; by eapply list_elem_of_lookup_2).
      assert (size group ≤ size (group ∪ set_of idx)) by (apply subseteq_size; set_solver).
      lia.
    + rewrite list_lookup_insert_ne in Hi by done.
      rewrite Forall_forall in HP. apply HP. by eapply list_elem_of_lookup_2.
  - intros st group _ _ HP. done.
Qed.

Lemma add_pair_sizes (l : list (gset nat)) (idx : nat * nat) :
  idx.1 ≠ idx.2 →
  Forall (λ g, 2 ≤ size g) l → Forall (λ g, 2 ≤ size g) (add_pair l idx).
Proof.
  intros Hne Hl. unfold add_pair. fold (scan_init l).
  pose proof (scan_union idx l (length l)) as H. simpl in H.
  pose proof (scan_sizes idx l (length l) Hl) as Hs.
  destruct (s_was_selected _).
  - destruct H as [_ Hsub]. case_decide; [|done].
    apply Forall_app. split; [done|]. apply Forall_singleton.
    rewrite <- (set_of_size idx Hne). by apply subseteq_size.
  - destruct H as [_ ->]. rewrite size_empty, decide_False by lia.
    apply Forall_app. split; [done|]. apply Forall_singleton.
    by rewrite set_of_size.
Qed.

Lemma group_pairs_sizes_from (index : list (nat * nat)) (l : list (gset nat)) :
  Forall (λ idx, idx.1 ≠ idx.2) index →
  Forall (λ g, 2 ≤ size g) l →
  Forall (λ g, 2 ≤ size g) (fold_left add_pair index l).
Proof.
  intros Hindex. revert l. induction Hindex as [|idx index Hidx _ IH]; intros l Hl; simpl.
  - done.
  - by apply IH, add_pair_sizes.
Qed.

(** C10: when the two indices of every pair differ, [_groups_idx] returns and
    every set it returns has at least two elements. *)
Theorem groups_idx_no_singleton (similarity_df : DataFrame) (index : list (nat * nat)) :
  col_index similarity_df = Some index →
  (∀ idx, idx ∈ index → idx.1 ≠ idx.2) →
  ∃ groups, _groups_idx similarity_df = Return groups ∧
            ∀ group, group ∈ groups → 2 ≤ size group.
Proof.
  intros Hcol Hne. exists (group_pairs index). split.
  - unfold _groups_idx. by rewrite Hcol.
  - apply Forall_forall, group_pairs_sizes_from; [|constructor].
    by apply Forall_forall.
Qed.

Lemma add_pair_scan_complete (l : list (gset nat)) (idx : nat * nat) :
  let st := scan (length l) idx (scan_init l) in
  length (s_sets_list st) ≤ s_pos st.
Proof. apply scan_exhausted. simpl. lia. Qed.

Lemma groups_idx_no_singleton_witness :
  ∃ groups, _groups_idx chain_above = Return groups ∧
            ∀ group, group ∈ groups → 2 ≤ size group.
Proof.
  apply (groups_idx_no_singleton chain_above [(0, 1); (2, 3); (1, 2)]).
  - vm_compute. reflexivity.
  - intros idx Hin. repeat (apply elem_of_cons in Hin as [->|Hin]); simpl; try lia.
    by apply elem_of_nil in Hin.
Defined.

(** ** Labelling the groups *)

Lemma last_group_snoc (groups : list (gset nat)) (group : gset nat) (l k : nat) :
  last_group (groups ++ [group]) l k
  = if decide (l ∈ group) then Some (k + length groups) else last_group groups l k.
Proof.
  revert k. induction groups as [|g groups IH]; intros k; simpl.
  - case_decide; [f_equal; lia|done].
  - rewrite IH. case_decide; [f_equal; lia|done].
Qed.

Lemma last_group_none (groups : list (gset nat)) (l k : nat) :
  (∀ group, group ∈ groups → l ∉ group) → last_group groups l k = None.
Proof.
  revert k. induction groups as [|g groups IH]; intros k Hnone; simpl; [done|].
  rewrite IH by (intros; apply Hnone; set_solver).
  rewrite decide_False; [done|]. apply Hnone. set_solver.
Qed.

(** When no other group holds the label, the group that holds it decides. *)
Lemma last_group_only (groups : list (gset nat)) (l k i : nat) (group : gset nat) :
  groups !! i = Some group → l ∈ group →
  (∀ j group', groups !! j = Some group' → j ≠ i → l ∉ group') →
  last_group groups l k = Some (k + i).
Proof.
  revert k i. induction groups as [|g groups IH]; intros k [|i] Hi Hl Hothers;
    simplify_eq/=.
  - rewrite last_group_none.
    + rewrite decide_True by done. f_equal. lia.
    + intros group' Hin. apply list_elem_of_lookup in Hin as [j Hj].
      by apply (Hothers (S j) group').
  - rewrite (IH (S k) i); [f_equal; lia|done|done|].
    intros j group' Hj Hne. apply (Hothers (S j) group'); [done|lia].
Qed.

(** On groups without overlap every member of the [i]-th group is given the
    [i]-th identifier drawn. *)
Lemma assigned_disjoint (uuid4 : nat → string) (groups : list (gset nat))
    (l i : nat) (group : gset nat) :
  (∀ j1 j2 g1 g2, groups !! j1 = Some g1 → groups !! j2 = Some g2 → j1 ≠ j2 → g1 ## g2) →
  groups !! i = Some group → l ∈ group →
  assigned uuid4 groups l = VStr (uuid4 i).
Proof.
  intros Hdisj Hi Hl. unfold assigned.
  rewrite (last_group_only groups l 0 i group); [done|done|done|].
  intros j group' Hj Hne Hl'. by apply (Hdisj j i group' group Hj Hi Hne l).
Qed.

Lemma loc_rows_returns (df : list string) (labels : list nat) :
  Forall (λ l, l < length df) labels →
  loc_rows df labels
  = Return ((λ l, {| r_label := l; r_id := default "" (df !! l);
                     r_similarity_uuid := VInt 0 |}) <$> labels).
Proof.
  intros Hlabels. unfold loc_rows.
  destruct (for_each_invariant
    (λ visited rows,
       rows = (λ l, {| r_label := l; r_id := default "" (df !! l);
                       r_similarity_uuid := VInt 0 |}) <$> visited)
    labels
    (λ rows l,
       match df !! l with
       | Some u => Return (rows ++ [ {| r_label := l; r_id := u; r_similarity_uuid := VInt 0 |} ])
       | None => Raise (KeyError (Label l))
       end) []) as (rows & -> & ->); [done| |done].
  intros visited l rows -> Hl.
  rewrite Forall_forall in Hlabels. apply Hlabels in Hl.
  destruct (lookup_lt_is_Some_2 df l Hl) as [u Hu]. cbv beta. rewrite Hu.
  eexists. split; [done|]. rewrite fmap_app. simpl. by rewrite Hu.
Qed.

Lemma loc_assign_returns (uuid4 : nat → string) (rows : list row)
    (visited : list (gset nat)) (group : gset nat) :
  group ⊆ list_to_set (r_label <$> rows) →
  loc_assign (labelled_row uuid4 visited <$> rows) group (VStr (uuid4 (length visited)))
  = Return (labelled_row uuid4 (visited ++ [group]) <$> rows).
Proof.
  intros Hsub. unfold loc_assign.
  destruct (filter _ _) as [|l ?] eqn:Hf.
  - f_equal. rewrite <- list_fmap_compose. apply list_fmap_ext. intros _ r _. simpl.
    unfold labelled_row, assigned. simpl. rewrite last_group_snoc.
    by case_decide.
  - assert (l ∈ filter (λ l, l ∉ r_label <$> (labelled_row uuid4 visited <$> rows))
                       (elements group)) as Hl by (rewrite Hf; set_solver).
    apply list_elem_of_filter in Hl as [Hnot Hin]. exfalso. apply Hnot.
    rewrite <- list_fmap_compose. apply elem_of_elements, Hsub in Hin.
    by apply elem_of_list_to_set in Hin.
Qed.

Lemma label_groups_returns (uuid4 : nat → string) (groups : list (gset nat))
    (rows : list row) :
  Forall (λ r, r_similarity_uuid r = VInt 0) rows →
  Forall (λ group, group ⊆ list_to_set (r_label <$> rows)) groups →
  label_groups uuid4 groups rows
  = Return (labelled_row uuid4 groups <$> rows, length groups).
Proof.
  intros Hzero Hgroups. unfold label_groups.
  destruct (for_each_invariant
    (λ visited (s : list row * nat),
       s = (labelled_row uuid4 visited <$> rows, length visited))
    groups
    (λ '(rows, k) group,
       rows ← loc_assign rows group (VStr (uuid4 k)); Return (rows, S k))
    (rows, 0)) as (s & -> & ->); [| |done].
  - f_equal. symmetry. rewrite <- (list_fmap_id rows) at 2.
    apply list_fmap_ext. intros i r Hr. simpl.
    rewrite Forall_forall in Hzero.
    apply list_elem_of_lookup_2, Hzero in Hr.
    destruct r. unfold labelled_row, assigned. simpl in *. by rewrite Hr.
  - intros visited group s -> Hin.
    rewrite Forall_forall in Hgroups.
    rewrite (loc_assign_returns uuid4 rows visited group (Hgroups _ Hin)).
    eexists. split; [done|]. rewrite length_app. simpl. do 2 f_equal. lia.
Qed.

Lemma elem_of_ravel (index : list (nat * nat)) (l : nat) :
  l ∈ ravel index ↔ ∃ idx, idx ∈ index ∧ (l = idx.1 ∨ l = idx.2).
Proof.
  unfold ravel. rewrite list_elem_of_In, in_flat_map. split.
  - intros (idx & Hidx & Hl). exists idx. rewrite list_elem_of_In. simpl in Hl. naive_solver.
  - intros (idx & Hidx & Hl). exists idx. rewrite <- list_elem_of_In. simpl. naive_solver.
Qed.

(** What [_groups_df] returns when every index of the pairs is a label of
    [df]: one record for each index that occurs in a pair, holding the
    identifier drawn for the last of the groups that contain the index. *)
Lemma groups_df_returns (uuid4 : nat → string) (similarity_df_above_threshold : DataFrame)
    (df : list string) (index : list (nat * nat)) :
  col_index similarity_df_above_threshold = Some index →
  Forall (λ idx, idx.1 < length df ∧ idx.2 < length df) index →
  _groups_df uuid4 similarity_df_above_threshold df
  = Return ((λ l, {| id := default "" (df !! l);
                     similarity_uuid := assigned uuid4 (group_pairs index) l |})
              <$> elements (list_to_set (C := gset nat) (ravel index))).
Proof.
  intros Hcol Hindex. unfold _groups_df, _groups_idx. rewrite Hcol. simpl.
  rewrite loc_rows_returns; simpl.
  - rewrite label_groups_returns; simpl.
    + f_equal. unfold to_dict. rewrite <- !list_fmap_compose. by apply list_fmap_ext.
    + by apply Forall_fmap, Forall_true.
    + rewrite <- list_fmap_compose.
      assert (∀ labels : list nat,
                (r_label ∘ (λ l, {| r_label := l; r_id := default "" (df !! l);
                                    r_similarity_uuid := VInt 0 |})) <$> labels = labels)
        as -> by (intros labels; induction labels; [done|]; simpl; by f_equal).
      rewrite list_to_set_elements_L, <- group_pairs_union.
      apply Forall_forall. intros group Hgroup l Hl.
      apply elem_of_union_list. by exists group.
  - apply Forall_forall. intros l Hl.
    apply elem_of_elements, elem_of_list_to_set, elem_of_ravel in Hl as (idx & Hidx & Hl).
    rewrite Forall_forall in Hindex. apply Hindex in Hidx. lia.
Qed.

Lemma select_above_fmap {A : Type} (f : pair → A) (t : Q) (l : list pair) :
  select ((λ s, bool_decide (t < s)%Q) <$> (p_score <$> l)) (f <$> l)
  = f <$> filter (λ p, (t < p_score p)%Q) l.
Proof.
  induction l as [|p l IH]; [done|]. rewrite !fmap_cons, filter_cons. simpl.
  case_bool_decide.
  - rewrite decide_True by done. by rewrite IH.
  - rewrite decide_False by done. by rewrite IH.
Qed.

(** The indices of the pairs that pass the threshold [t]. *)
Lemma pairs_above_in_range (cs : Tensor) (t : Q) :
  Forall (λ idx, idx.1 < t_len cs ∧ idx.2 < t_len cs)
    (p_index <$> filter (λ p, (t < p_score p)%Q) (sorted_reverse (enumerate_pairs cs))).
Proof.
  apply Forall_fmap, Forall_forall. intros p Hp.
  apply list_elem_of_filter in Hp as [_ Hp]. rewrite sorted_reverse_perm in Hp.
  apply elem_of_enumerate_pairs in Hp as [Hp _]. simpl. lia.
Qed.

(** The driver on two items or more, for any threshold. *)
Lemma similarity_groups_at_returns (t : Q) (uuid4 : nat → string)
    (df_reduced : list string) (cos_sim : nat → nat → Q) :
  2 ≤ length df_reduced →
  let cosine_scores := {| t_len := length df_reduced; t_at := cos_sim |} in
  let index :=
    p_index <$> filter (λ p, (t < p_score p)%Q)
                  (sorted_reverse (enumerate_pairs cosine_scores)) in
  similarity_groups_at t uuid4 df_reduced cos_sim
  = Return ((λ l, {| id := default "" (df_reduced !! l);
                     similarity_uuid := assigned uuid4 (group_pairs index) l |})
              <$> elements (list_to_set (C := gset nat) (ravel index))).
Proof.
  intros Hn cosine_scores index. unfold similarity_groups_at.
  fold cosine_scores. rewrite pairs_df_model_frame by done. simpl.
  apply groups_df_returns.
  - simpl. by rewrite select_above_fmap.
  - apply (pairs_above_in_range cosine_scores t).
Qed.

(** ** The dense matrix *)

Section matrix.
Variables (df : DataFrame) (ind1 ind2 : list nat) (score : list Q) (n : nat).
Hypothesis Hind1 : col_ind1 df = Some ind1.
Hypothesis Hind2 : col_ind2 df = Some ind2.
Hypothesis Hscore : col_score df = Some score.

Lemma expected_cell_sym (a b : nat) :
  expected_cell ind1 ind2 score a b = expected_cell ind1 ind2 score b a.
Proof.
  unfold expected_cell. repeat case_decide; try done; try lia.
  by rewrite Nat.min_comm, Nat.max_comm.
Qed.

(** One turn writes the same cell on both sides of the diagonal. *)
Lemma matrix_turn (visited : list (nat * nat)) (m : Matrix) (i j : nat) :
  i ≤ j →
  written ind1 ind2 score n visited m →
  ∃ m',
    (if decide (j = i) then
       let m := m_set m i j (IntCell 1) in
       Return (m_set m j i (IntCell 1))
     else
       ind1 ← getitem (col_ind1 df) "ind1";
       ind2 ← getitem (col_ind2 df) "ind2";
       let mask := zip_with (λ a b, bool_decide (a = i) && bool_decide (b = j)) ind1 ind2 in
       similarity_score ← getitem (col_score (getitem_mask df mask)) "score";
       let m := m_set m i j (ScoreCell similarity_score) in
       Return (m_set m j i (ScoreCell similarity_score))) = Return m' ∧
    written ind1 ind2 score n (visited ++ [(i, j)]) m'.
Proof.
  intros Hij [Hshape Hcells].
  exists (m_set (m_set m i j (expected_cell ind1 ind2 score i j)) j i
            (expected_cell ind1 ind2 score i j)).
  split.
  - unfold expected_cell. destruct (decide (j = i)) as [->|Hji].
    + by rewrite decide_True.
    + rewrite decide_False by lia. rewrite Hind1, Hind2. simpl. rewrite Hscore. simpl.
      by rewrite Nat.min_l, Nat.max_r by lia.
  - split; [done|]. intros a b. simpl.
    destruct (decide ((a, b) = (j, i))) as [Hab|Hab].
    { simplify_eq. rewrite lookup_insert_eq, decide_True.
      - by rewrite expected_cell_sym.
      - rewrite Nat.min_r, Nat.max_l by lia. set_solver. }
    rewrite lookup_insert_ne by done.
    destruct (decide ((a, b) = (i, j))) as [Hab'|Hab'].
    { simplify_eq. rewrite lookup_insert_eq, decide_True; [done|].
      rewrite Nat.min_l, Nat.max_r by lia. set_solver. }
    rewrite lookup_insert_ne by done. rewrite Hcells.
    assert ((a `min` b, a `max` b) ≠ (i, j)) as Hne.
    { intros Heq. simplify_eq.
      destruct (Nat.le_ge_cases a b).
      - apply Hab'. f_equal; lia.
      - apply Hab. f_equal; lia. }
    repeat case_decide; try done; set_solver.
Qed.

Lemma matrix_row (visited : list (nat * nat)) (m : Matrix) (i : nat) :
  written ind1 ind2 score n visited m →
  ∃ m',
    for_each (range i n) (λ similarity_matrix j,
      if decide (j = i) then
        let similarity_matrix := m_set similarity_matrix i j (IntCell 1) in
        Return (m_set similarity_matrix j i (IntCell 1))
      else
        ind1 ← getitem (col_ind1 df) "ind1";
        ind2 ← getitem (col_ind2 df) "ind2";
        let mask := zip_with (λ a b, bool_decide (a = i) && bool_decide (b = j)) ind1 ind2 in
        similarity_score ← getitem (col_score (getitem_mask df mask)) "score";
        let similarity_matrix := m_set similarity_matrix i j (ScoreCell similarity_score) in
        Return (m_set similarity_matrix j i (ScoreCell similarity_score))) m = Return m' ∧
    written ind1 ind2 score n (visited ++ row_turns n i) m'.
Proof.
  intros Hm.
  apply (for_each_invariant
           (λ js m, written ind1 ind2 score n (visited ++ ((λ j, (i, j)) <$> js)) m)).
  - simpl. by rewrite app_nil_r.
  - intros js j m0 Hm0 Hj. apply elem_of_range in Hj.
    rewrite fmap_app, app_assoc. simpl. apply matrix_turn; [lia|done].
Qed.

Lemma matrix_written :
  ∃ m, similarity_matrix df n = Return m ∧
       written ind1 ind2 score n (flat_map (row_turns n) (range 0 n)) m.
Proof.
  unfold similarity_matrix.
  apply (for_each_invariant
           (λ rows m, written ind1 ind2 score n (flat_map (row_turns n) rows) m)).
  - split; [done|]. intros a b. cbn [m_cells flat_map]. rewrite lookup_empty.
    rewrite decide_False; [done|]. apply not_elem_of_nil.
  - intros rows i m Hm _. rewrite flat_map_app. simpl. rewrite app_nil_r.
    by apply matrix_row.
Qed.

Lemma elem_of_turns (a b : nat) :
  (a, b) ∈ flat_map (row_turns n) (range 0 n) ↔ a ≤ b < n.
Proof.
  rewrite list_elem_of_In, in_flat_map. split.
  - intros (i & Hi & Hab). apply list_elem_of_In, elem_of_range in Hi.
    apply list_elem_of_In, list_elem_of_fmap in Hab as (j & Heq & Hj).
    apply elem_of_range in Hj. simplify_eq. lia.
  - intros Hab. exists a. split.
    + apply list_elem_of_In, elem_of_range. lia.
    + apply list_elem_of_In, list_elem_of_fmap. exists b. split; [done|].
      apply elem_of_range. lia.
Qed.
End matrix.

(** Every cell of the square is written, and nothing outside it. *)
Lemma similarity_matrix_cells (df : DataFrame) (ind1 ind2 : list nat)
    (score : list Q) (n : nat) :
  col_ind1 df = Some ind1 → col_ind2 df = Some ind2 → col_score df = Some score →
  ∃ m, similarity_matrix df n = Return m ∧
       ∀ a b, m_get m a b
              = if decide (a < n ∧ b < n) then expected_cell ind1 ind2 score a b else NaN.
Proof.
  intros Hind1 Hind2 Hscore.
  destruct (matrix_written df ind1 ind2 score n Hind1 Hind2 Hscore) as (m & Hm & _ & Hcells).
  exists m. split; [done|]. intros a b. unfold m_get. rewrite Hcells.
  destruct (decide (a < n ∧ b < n)) as [Hab|Hab].
  - rewrite decide_True; [done|]. apply elem_of_turns. lia.
  - rewrite decide_False; [done|]. rewrite elem_of_turns. lia.
Qed.

(** C8: the score of a pair is stored once, for [i < j], and serves both
    orientations: the matrix [similarity_matrix] builds from a frame that has
    the columns ['ind1'], ['ind2'] and ['score'] is symmetric, both cells
    [(i, j)] and [(j, i)] holding the score stored for the pair [i < j], and
    the diagonal holding [1]. *)
Theorem similarity_matrix_symmetric (df : DataFrame) (ind1 ind2 : list nat)
    (score : list Q) (n : nat) :
  col_ind1 df = Some ind1 → col_ind2 df = Some ind2 → col_score df = Some score →
  ∃ m, similarity_matrix df n = Return m ∧
       (∀ i j, m_get m i j = m_get m j i) ∧
       (∀ i j, i < j < n →
          m_get m i j = ScoreCell (stored_scores ind1 ind2 score i j) ∧
          m_get m j i = ScoreCell (stored_scores ind1 ind2 score i j)) ∧
       (∀ i, i < n → m_get m i i = IntCell 1).
Proof.
  intros Hind1 Hind2 Hscore.
  destruct (similarity_matrix_cells df ind1 ind2 score n Hind1 Hind2 Hscore)
    as (m & Hm & Hcells).
  exists m. split; [done|].
  assert (∀ i j, m_get m i j = m_get m j i) as Hsym.
  { intros i j. rewrite !Hcells, (expected_cell_sym _ _ _ j i).
    repeat case_decide; try done; lia. }
  split; [done|]. split.
  - intros i j Hij. rewrite <- (Hsym i j), Hcells, decide_True by lia.
    unfold expected_cell. rewrite decide_False by lia.
    by rewrite Nat.min_l, Nat.max_r by lia.
  - intros i Hi. rewrite Hcells, decide_True by lia.
    unfold expected_cell. by rewrite decide_True.
Qed.

Lemma similarity_matrix_symmetric_witness :
  ∃ m, similarity_matrix chain_pairs_df 4 = Return m ∧
       (∀ i j, m_get m i j = m_get m j i) ∧
       (∀ i j, i < j < 4 →
          m_get m i j
          = ScoreCell (stored_scores [0; 2; 1; 0; 1; 0] [1; 3; 2; 2; 3; 3]
                         [15 # 17; 253 # 325; 297 # 425; 7 # 25; 21 # 221; -5 # 13]%Q i j) ∧
          m_get m j i
          = ScoreCell (stored_scores [0; 2; 1; 0; 1; 0] [1; 3; 2; 2; 3; 3]
                         [15 # 17; 253 # 325; 297 # 425; 7 # 25; 21 # 221; -5 # 13]%Q i j)) ∧
       (∀ i, i < 4 → m_get m i i = IntCell 1).
Proof.
  apply (similarity_matrix_symmetric chain_pairs_df); vm_compute; reflexivity.
Defined.

(** The matrix built from the frame of [_pairs_df_model]: the cells [(i, j)]
    and [(j, i)] both hold the one score [cosine_scores[i][j]], [i < j]. *)
Lemma stored_scores_filter (l : list pair) (i j : nat) :
  stored_scores (fst <$> (p_index <$> l)) (snd <$> (p_index <$> l)) (p_score <$> l) i j
  = p_score <$> filter (λ p, p_index p = (i, j)) l.
Proof.
  unfold stored_scores. induction l as [|[[a b] s] l IH]; [done|].
  rewrite !fmap_cons, filter_cons. simpl.
  destruct (decide ((a, b) = (i, j))) as [Heq|Hne].
  - simplify_eq. rewrite !bool_decide_eq_true_2 by done. simpl. by rewrite IH.
  - destruct (decide (a = i)) as [->|Ha].
    + rewrite (bool_decide_eq_false_2 (b = j)) by congruence.
      rewrite andb_false_r. apply IH.
    + rewrite (bool_decide_eq_false_2 (a = i)) by done. apply IH.
Qed.

Lemma filter_index_unique (l : list pair) (p : pair) :
  NoDup (p_index <$> l) → p ∈ l → filter (λ q, p_index q = p_index p) l = [p].
Proof.
  induction l as [|q l IH]; intros Hnd Hp; [by apply elem_of_nil in Hp|].
  rewrite fmap_cons in Hnd. apply NoDup_cons in Hnd as [Hq Hnd].
  rewrite filter_cons. case_decide as Heq.
  - assert (p = q) as ->.
    { apply elem_of_cons in Hp as [->|Hp]; [done|]. exfalso. apply Hq.
      rewrite Heq. by apply list_elem_of_fmap_2. }
    f_equal. destruct (filter _ l) as [|r ?] eqn:Hf; [done|].
    assert (r ∈ filter (λ q0, p_index q0 = p_index q) l) as Hr by (rewrite Hf; set_solver).
    apply list_elem_of_filter in Hr as [Hrq Hr]. exfalso.
    apply Hq. rewrite <- Hrq. by apply list_elem_of_fmap_2.
  - apply IH; [done|]. apply elem_of_cons in Hp as [->|Hp]; done.
Qed.

Lemma similarity_matrix_of_pairs (cs : Tensor) :
  2 ≤ t_len cs →
  ∃ df m, _pairs_df_model cs = Return df ∧
          similarity_matrix df (t_len cs) = Return m ∧
          ∀ i j, i < j < t_len cs →
            m_get m i j = ScoreCell [t_at cs i j] ∧ m_get m j i = ScoreCell [t_at cs i j].
Proof.
  intros Hn. set (l := sorted_reverse (enumerate_pairs cs)).
  destruct (similarity_matrix_cells (pairs_frame l)
              (fst <$> (p_index <$> l)) (snd <$> (p_index <$> l)) (p_score <$> l)
              (t_len cs) eq_refl eq_refl eq_refl) as (m & Hm & Hcells).
  exists (pairs_frame l), m. split; [by apply pairs_df_model_frame|]. split; [done|].
  intros i j Hij. rewrite !Hcells, !decide_True by lia.
  rewrite (expected_cell_sym _ _ _ j i). unfold expected_cell.
  rewrite decide_False by lia. rewrite Nat.min_l, Nat.max_r by lia.
  rewrite stored_scores_filter.
  assert ({| p_index := (i, j); p_score := t_at cs i j |} ∈ l) as Hin.
  { unfold l. rewrite sorted_reverse_perm. by apply elem_of_enumerate_pairs. }
  assert (NoDup (p_index <$> l)) as Hnd.
  { unfold l. rewrite sorted_reverse_perm.
    apply sorted_index_NoDup, sorted_enumerate_pairs. }
  pose proof (filter_index_unique l _ Hnd Hin) as Hf. simpl in Hf.
  by rewrite Hf.
Qed.

(** ** The driver *)

(** C6: with no item, or with one, the list of pairs is empty, the frame built
    from it has no column, and [_pairs_df_model] raises [KeyError] at
    [pairs_df["index"]]; so does the driver. *)
Theorem small_input_raises (uuid4 : nat → string) (cos_sim : nat → nat → Q) :
  enumerate_pairs {| t_len := 0; t_at := cos_sim |} = [] ∧
  enumerate_pairs {| t_len := 1; t_at := cos_sim |} = [] ∧
  compute_similarity_groups uuid4 [] cos_sim = Raise (KeyError (Column "index")) ∧
  ∀ a, compute_similarity_groups uuid4 [a] cos_sim = Raise (KeyError (Column "index")).
Proof.
  split; [done|]. split; [done|].
  split; [|intros a]; unfold compute_similarity_groups, similarity_groups_at;
    by rewrite pairs_df_model_small by (simpl; lia).
Qed.

(** ** The chain of four items *)

Lemma chain_above_records :
  records chain_above
  = [ {| p_index := (0, 1); p_score := 15 # 17 |};
      {| p_index := (2, 3); p_score := 253 # 325 |};
      {| p_index := (1, 2); p_score := 297 # 425 |} ].
Proof. vm_compute. reflexivity. Qed.

(** C1: the frame of the chain and the same rows in another order give
    different collections of sets. *)
Theorem groups_idx_order_dependent :
  records chain_reordered ≡ₚ records chain_above ∧
  _groups_idx chain_reordered = Return [ {[0; 1; 2; 3]} ] ∧
  _groups_idx chain_above = Return [ {[2; 3]}; {[0; 1; 2]} ] ∧
  ({[0; 1; 2; 3]} : gset nat) ∉ [ ({[2; 3]} : gset nat); {[0; 1; 2]} ].
Proof.
  split; [|split; [|split]].
  - rewrite chain_above_records. unfold chain_reordered. rewrite records_pairs_frame.
    apply perm_skip, perm_swap.
  - vm_compute. reflexivity.
  - vm_compute. reflexivity.
  - intros Hin. repeat (apply elem_of_cons in Hin as [Hin|Hin]).
    + assert (0 ∈ ({[2; 3]} : gset nat)) by (rewrite <- Hin; set_solver). set_solver.
    + assert (3 ∈ ({[0; 1; 2]} : gset nat)) by (rewrite <- Hin; set_solver). set_solver.
    + by apply elem_of_nil in Hin.
Qed.

(** C2: on the pairs of the chain the index 2 is in both sets returned. *)
Theorem groups_idx_overlap :
  col_index chain_above = Some [(0, 1); (2, 3); (1, 2)] ∧
  ∃ group1 group2,
    _groups_idx chain_above = Return [group1; group2] ∧
    2 ∈ group1 ∧ 2 ∈ group2 ∧ ¬ group1 ## group2.
Proof.
  split; [vm_compute; reflexivity|].
  exists {[2; 3]}, {[0; 1; 2]}. split; [vm_compute; reflexivity|].
  split; [set_solver|]. split; [set_solver|].
  intros Hdisj. apply (Hdisj 2); set_solver.
Qed.

(** C3: in the chain the scores of [(B, C)] and of [(C, D)] are above the
    threshold, and [C] and [D] end with different identifiers. *)
Theorem chain_not_transitive :
  (SIMILARITY_THRESHOLD < chain_cos_sim 1%nat 2%nat)%Q ∧
  (SIMILARITY_THRESHOLD < chain_cos_sim 2%nat 3%nat)%Q ∧
  chain_ids !! 1 = Some "B" ∧ chain_ids !! 2 = Some "C" ∧ chain_ids !! 3 = Some "D" ∧
  ∃ out,
    compute_similarity_groups numbered chain_ids chain_cos_sim = Return out ∧
    NoDup (id <$> out) ∧
    {| id := "B"; similarity_uuid := VStr "1" |} ∈ out ∧
    {| id := "C"; similarity_uuid := VStr "1" |} ∈ out ∧
    {| id := "D"; similarity_uuid := VStr "0" |} ∈ out.
Proof.
  do 5 (split; [vm_compute; reflexivity|]).
  eexists. split; [vm_compute; reflexivity|].
  split; [|set_solver].
  repeat (apply NoDup_cons; split; [set_solver|]). apply NoDup_nil_2.
Qed.

(** C4: the labeller on the pairs of the chain: [{2, 3}] is one of the sets
    computed, and its members [C] and [D] are given different identifiers,
    the one of [C] being overwritten when the next set is labelled. *)
Theorem groups_df_splits_group :
  chain_ids !! 2 = Some "C" ∧ chain_ids !! 3 = Some "D" ∧
  _groups_idx chain_above = Return [ {[2; 3]}; {[0; 1; 2]} ] ∧
  ∃ out,
    _groups_df numbered chain_above chain_ids = Return out ∧
    NoDup (id <$> out) ∧
    {| id := "C"; similarity_uuid := VStr "1" |} ∈ out ∧
    {| id := "D"; similarity_uuid := VStr "0" |} ∈ out.
Proof.
  do 3 (split; [vm_compute; reflexivity|]).
  eexists. split; [vm_compute; reflexivity|].
  split; [|set_solver].
  repeat (apply NoDup_cons; split; [set_solver|]). apply NoDup_nil_2.
Qed.

(** ** More on the pass over [sets_list] *)

Lemma meets_size (A B : gset nat) : 0 < size (A ∩ B) ↔ ¬ A ## B.
Proof.
  split.
  - intros Hpos Hdisj. apply size_pos_elem_of in Hpos as [x Hx]. set_solver.
  - intros Hmeet. destruct (decide (size (A ∩ B) = 0)) as [Hz|Hz]; [|lia].
    exfalso. apply Hmeet. apply size_empty_iff in Hz. set_solver.
Qed.

Lemma list_remove_other (x y : gset nat) (l : list (gset nat)) :
  y ∈ l → y ≠ x → y ∈ list_remove x l.
Proof.
  intros Hy Hne. induction l as [|z l IH]; simpl; [done|].
  apply elem_of_cons in Hy as [->|Hy].
  - rewrite decide_False by done. set_solver.
  - case_decide; [done|]. set_solver.
Qed.

Lemma list_remove_at (x : gset nat) (l : list (gset nat)) (p : nat) :
  l !! p = Some x → (∀ i y, i < p → l !! i = Some y → y ≠ x) →
  list_remove x l = delete p l.
Proof.
  revert p. induction l as [|z l IH]; intros [|p] Hp Hbefore; simplify_eq/=.
  - by rewrite decide_True.
  - rewrite decide_False by (apply (Hbefore 0); [lia|done]).
    f_equal. apply IH; [done|]. intros i y Hi Hy. apply (Hbefore (S i)); [lia|done].
Qed.

(** A pass in which no set from the position of the iterator on meets the
    pair changes neither the list nor the locals. *)
Lemma scan_no_hit (idx : nat * nat) (fuel : nat) (st : scan_state) :
  (∀ i g, s_pos st ≤ i → s_sets_list st !! i = Some g → set_of idx ## g) →
  s_sets_list (scan fuel idx st) = s_sets_list st ∧
  s_first_match (scan fuel idx st) = s_first_match st ∧
  s_was_selected (scan fuel idx st) = s_was_selected st.
Proof.
  revert st. induction fuel as [|fuel IH]; intros st Hdisj; simpl; [done|].
  destruct (s_sets_list st !! s_pos st) as [group|] eqn:Hg; [|done].
  rewrite decide_False.
  - apply (IH {| s_sets_list := s_sets_list st; s_pos := S (s_pos st);
                 s_first_match := s_first_match st;
                 s_was_selected := s_was_selected st |}).
    simpl. intros i g Hi. apply Hdisj. lia.
  - rewrite meets_size. intros Hmeet. apply Hmeet. by apply (Hdisj (s_pos st)).
Qed.

(** A pass in which exactly the set at position [p] meets the pair: that set
    leaves the list and goes, with the pair, into [first_match]. *)
Lemma scan_single_hit (idx : nat * nat) (p : nat) (group : gset nat)
    (fuel : nat) (st : scan_state) :
  s_pos st ≤ p →
  s_sets_list st !! p = Some group →
  ¬ set_of idx ## group →
  (∀ i g, i ≠ p → s_sets_list st !! i = Some g → set_of idx ## g) →
  length (s_sets_list st) - s_pos st ≤ fuel →
  s_sets_list (scan fuel idx st) = delete p (s_sets_list st) ∧
  s_first_match (scan fuel idx st) = s_first_match st ∪ (group ∪ set_of idx) ∧
  s_was_selected (scan fuel idx st) = true.
Proof.
  revert st. induction fuel as [|fuel IH]; intros st Hpos Hp Hmeet Hothers Hfuel.
  { apply lookup_lt_Some in Hp. lia. }
  simpl. destruct (decide (s_pos st = p)) as [Heq|Hne].
  - rewrite Heq, Hp. rewrite decide_True by (by apply meets_size).
    assert (list_remove (group ∪ set_of idx) (<[p := group ∪ set_of idx]> (s_sets_list st))
            = delete p (s_sets_list st)) as Hrem.
    { rewrite (list_remove_at _ _ p).
      - apply list_eq. intros i. destruct (decide (i < p)).
        + by rewrite !list_lookup_delete_lt, list_lookup_insert_ne by lia.
        + by rewrite !list_lookup_delete_ge, list_lookup_insert_ne by lia.
      - apply list_lookup_insert_eq. by eapply lookup_lt_Some.
      - intros i y Hi Hy. rewrite list_lookup_insert_ne in Hy by lia.
        intros ->. specialize (Hothers i _ ltac:(lia) Hy).
        pose proof (set_of_nonempty idx) as Hne.
        apply size_pos_elem_of in Hne as [x Hx]. set_solver. }
    rewrite Hrem.
    destruct (scan_no_hit idx fuel
                {| s_sets_list := delete p (s_sets_list st); s_pos := S p;
                   s_first_match := s_first_match st ∪ (group ∪ set_of idx);
                   s_was_selected := true |}) as (-> & -> & ->); [|done].
    simpl. intros i g Hi Hg. rewrite list_lookup_delete_ge in Hg by lia.
    apply (Hothers (S i)); [lia|done].
  - destruct (s_sets_list st !! s_pos st) as [g|] eqn:Hg.
    + rewrite decide_False.
      * apply (IH {| s_sets_list := s_sets_list st; s_pos := S (s_pos st);
                     s_first_match := s_first_match st;
                     s_was_selected := s_was_selected st |}); simpl; try done; lia.
      * rewrite meets_size. intros Hm. apply Hm. by apply (Hothers (s_pos st)).
    + apply lookup_ge_None in Hg. apply lookup_lt_Some in Hp. lia.
Qed.

Lemma add_pair_no_hit (l : list (gset nat)) (idx : nat * nat) :
  (∀ g, g ∈ l → set_of idx ## g) → add_pair l idx = l ++ [set_of idx].
Proof.
  intros Hdisj. unfold add_pair. fold (scan_init l).
  destruct (scan_no_hit idx (length l) (scan_init l)) as (-> & -> & ->).
  - intros i g _ Hg. apply Hdisj. by eapply list_elem_of_lookup_2.
  - unfold scan_init. cbn [s_sets_list s_first_match s_was_selected].
    by rewrite size_empty, decide_False by lia.
Qed.

Lemma add_pair_single_hit (l : list (gset nat)) (idx : nat * nat) (p : nat)
    (group : gset nat) :
  l !! p = Some group → ¬ set_of idx ## group →
  (∀ i g, i ≠ p → l !! i = Some g → set_of idx ## g) →
  add_pair l idx = delete p l ++ [group ∪ set_of idx].
Proof.
  intros Hp Hmeet Hothers. unfold add_pair. fold (scan_init l).
  destruct (scan_single_hit idx p group (length l) (scan_init l))
    as (-> & -> & ->); simpl; try done; try lia.
  rewrite (left_id_L ∅ (∪)). rewrite decide_True; [done|].
  pose proof (set_of_nonempty idx).
  assert (size (set_of idx) ≤ size (group ∪ set_of idx)); [|lia].
  apply subseteq_size. set_solver.
Qed.

(** What is in a set stays together: a set of indices that lies inside a set
    of the list lies inside a set of the list after the turn for a pair. *)
Lemma add_pair_keeps (l : list (gset nat)) (idx : nat * nat) (e : gset nat) :
  (∃ g, g ∈ l ∧ e ⊆ g) → ∃ g, g ∈ add_pair l idx ∧ e ⊆ g.
Proof.
  intros Hl.
  assert (let st := scan (length l) idx (scan_init l) in
          (∃ g, g ∈ s_sets_list st ∧ e ⊆ g) ∨ e ⊆ s_first_match st) as Hkeep.
  { apply (scan_invariant (λ st,
      (∃ g, g ∈ s_sets_list st ∧ e ⊆ g) ∨ e ⊆ s_first_match st)); [| |by left].
    - intros st group Hg _ [(g0 & Hin & He)|He]; simpl; [|right; set_solver].
      apply list_elem_of_lookup in Hin as [i Hi].
      destruct (decide (i = s_pos st)) as [->|Hne].
      { simplify_eq. right. set_solver. }
      destruct (decide (g0 = group ∪ set_of idx)) as [->|Hg0].
      { right. set_solver. }
      left. exists g0. split; [|done]. apply list_remove_other; [|done].
      apply list_elem_of_lookup. exists i. by rewrite list_lookup_insert_ne.
    - intros st group _ _ HP. done. }
  pose proof (scan_union idx l (length l)) as Hun. simpl in Hun, Hkeep.
  unfold add_pair. fold (scan_init l).
  destruct (s_was_selected _).
  - destruct Hun as [_ Hsub]. rewrite decide_True.
    + destruct Hkeep as [(g & Hin & He)|He].
      * exists g. split; [|done]. set_solver.
      * eexists. split; [|exact He]. set_solver.
    + pose proof (set_of_nonempty idx). pose proof (subseteq_size _ _ Hsub). lia.
  - destruct Hun as [Hlist Hfm]. rewrite Hfm, size_empty, decide_False by lia.
    rewrite Hlist. destruct Hl as (g & Hin & He). exists g. split; [|done]. set_solver.
Qed.

Lemma add_pair_has_pair (l : list (gset nat)) (idx : nat * nat) :
  ∃ g, g ∈ add_pair l idx ∧ set_of idx ⊆ g.
Proof.
  pose proof (scan_union idx l (length l)) as Hun. simpl in Hun.
  unfold add_pair. fold (scan_init l).
  destruct (s_was_selected _).
  - destruct Hun as [_ Hsub]. rewrite decide_True.
    + eexists. split; [|exact Hsub]. set_solver.
    + pose proof (set_of_nonempty idx). pose proof (subseteq_size _ _ Hsub). lia.
  - exists (set_of idx). split; [|done]. case_decide; set_solver.
Qed.

Lemma group_pairs_together_from (index : list (nat * nat)) (l : list (gset nat))
    (e : gset nat) :
  (∃ g, g ∈ l ∧ e ⊆ g) ∨ (∃ idx, idx ∈ index ∧ e ⊆ set_of idx) →
  ∃ g, g ∈ fold_left add_pair index l ∧ e ⊆ g.
Proof.
  revert l. induction index as [|idx index IH]; intros l H; simpl.
  - destruct H as [H|(idx & Hin & _)]; [done|]. by apply elem_of_nil in Hin.
  - apply IH. destruct H as [H|(idx' & Hin & He)].
    + left. by apply add_pair_keeps.
    + apply elem_of_cons in Hin as [->|Hin].
      * left. destruct (add_pair_has_pair l idx) as (g & Hg & Hsub).
        exists g. split; [done|]. set_solver.
      * right. by exists idx'.
Qed.

Lemma length_add_pair (l : list (gset nat)) (idx : nat * nat) :
  1 ≤ length (add_pair l idx) ≤ S (length l).
Proof.
  assert (length (s_sets_list (scan (length l) idx (scan_init l))) ≤ length l) as Hlen.
  { apply (scan_invariant (λ st, length (s_sets_list st) ≤ length l)); [| |done].
    - intros st group _ _ HP. simpl.
      pose proof (length_list_remove (group ∪ set_of idx)
                    (<[s_pos st := group ∪ set_of idx]> (s_sets_list st))) as H.
      rewrite length_insert in H. lia.
    - intros st group _ _ HP. done. }
  pose proof (scan_union idx l (length l)) as Hun. simpl in Hun.
  unfold add_pair. fold (scan_init l).
  destruct (s_was_selected _).
  - destruct Hun as [_ Hsub]. rewrite decide_True.
    + rewrite length_app. simpl. lia.
    + pose proof (set_of_nonempty idx). pose proof (subseteq_size _ _ Hsub). lia.
  - destruct Hun as [_ ->]. rewrite size_empty, decide_False by lia.
    rewrite length_app. simpl. lia.
Qed.

Lemma length_group_pairs_from (index : list (nat * nat)) (l : list (gset nat)) :
  length (fold_left add_pair index l) ≤ length l + length index ∧
  (index ≠ [] → 1 ≤ length (fold_left add_pair index l)).
Proof.
  revert l. induction index as [|idx index IH]; intros l; simpl; [split; [lia|done]|].
  destruct (IH (add_pair l idx)) as [Hle Hpos].
  pose proof (length_add_pair l idx). split; [lia|]. intros _.
  destruct index as [|idx' index]; [simpl; lia|]. by apply Hpos.
Qed.

(** ** What [_groups_idx] guarantees *)

(** X1: the sets returned by [_groups_idx] cover exactly the indices that
    occur in a pair: an index is in one of the sets if and only if it is one
    of the two indices of some row. *)
Theorem groups_idx_cover (similarity_df : DataFrame) (index : list (nat * nat)) :
  col_index similarity_df = Some index →
  ∃ groups, _groups_idx similarity_df = Return groups ∧
            ∀ l, (∃ group, group ∈ groups ∧ l ∈ group) ↔
                 (∃ idx, idx ∈ index ∧ (l = idx.1 ∨ l = idx.2)).
Proof.
  intros Hcol. exists (group_pairs index). split.
  - unfold _groups_idx. by rewrite Hcol.
  - intros l. rewrite <- elem_of_union_list, group_pairs_union, elem_of_list_to_set.
    apply elem_of_ravel.
Qed.

Lemma groups_idx_cover_witness :
  ∃ groups, _groups_idx chain_above = Return groups ∧
            ∀ l, (∃ group, group ∈ groups ∧ l ∈ group) ↔
                 (∃ idx, idx ∈ [(0, 1); (2, 3); (1, 2)] ∧ (l = idx.1 ∨ l = idx.2)).
Proof. apply (groups_idx_cover chain_above). vm_compute. reflexivity. Defined.

(** X2: the two indices of a row are never separated: for every row there is
    a set among those returned that holds both of its indices. *)
Theorem groups_idx_pair_together (similarity_df : DataFrame) (index : list (nat * nat)) :
  col_index similarity_df = Some index →
  ∃ groups, _groups_idx similarity_df = Return groups ∧
            ∀ idx, idx ∈ index → ∃ group, group ∈ groups ∧ idx.1 ∈ group ∧ idx.2 ∈ group.
Proof.
  intros Hcol. exists (group_pairs index). split.
  - unfold _groups_idx. by rewrite Hcol.
  - intros idx Hidx.
    destruct (group_pairs_together_from index [] (set_of idx)) as (g & Hg & Hsub).
    { right. by exists idx. }
    exists g. split; [done|]. unfold set_of in Hsub. set_solver.
Qed.

Lemma groups_idx_pair_together_witness :
  ∃ groups, _groups_idx chain_above = Return groups ∧
            ∀ idx, idx ∈ [(0, 1); (2, 3); (1, 2)] →
                   ∃ group, group ∈ groups ∧ idx.1 ∈ group ∧ idx.2 ∈ group.
Proof. apply (groups_idx_pair_together chain_above). vm_compute. reflexivity. Defined.

(** X3: [_groups_idx] never returns more sets than there are rows, and
    returns at least one set when there is a row. *)
Theorem groups_idx_count (similarity_df : DataFrame) (index : list (nat * nat)) :
  col_index similarity_df = Some index →
  ∃ groups, _groups_idx similarity_df = Return groups ∧
            length groups ≤ length index ∧ (index ≠ [] → groups ≠ []).
Proof.
  intros Hcol. exists (group_pairs index). split.
  - unfold _groups_idx. by rewrite Hcol.
  - destruct (length_group_pairs_from index []) as [Hle Hpos]. split; [done|].
    intros Hne Hnil. specialize (Hpos Hne). unfold group_pairs in Hnil.
    rewrite Hnil in Hpos. simpl in Hpos. lia.
Qed.

Lemma groups_idx_count_witness :
  ∃ groups, _groups_idx chain_above = Return groups ∧
            length groups ≤ length [(0, 1); (2, 3); (1, 2)] ∧
            ([(0, 1); (2, 3); (1, 2)] ≠ [] → groups ≠ []).
Proof. apply (groups_idx_count chain_above). vm_compute. reflexivity. Defined.

Lemma ravel_app (index1 index2 : list (nat * nat)) :
  ravel (index1 ++ index2) = ravel index1 ++ ravel index2.
Proof. unfold ravel. apply flat_map_app. Qed.

Lemma group_pairs_matching_from (pre index : list (nat * nat)) :
  NoDup (ravel (pre ++ index)) →
  fold_left add_pair index (set_of <$> pre) = set_of <$> (pre ++ index).
Proof.
  revert pre. induction index as [|idx index IH]; intros pre Hnd; simpl.
  - by rewrite app_nil_r.
  - rewrite add_pair_no_hit.
    + replace (pre ++ idx :: index) with ((pre ++ [idx]) ++ index) in *
        by (by rewrite <- app_assoc).
      rewrite <- (IH (pre ++ [idx])) by done. by rewrite fmap_app.
    + intros g Hg. apply list_elem_of_fmap in Hg as (e & -> & He).
      rewrite ravel_app in Hnd. apply NoDup_app in Hnd as (_ & Hdisj & _).
      assert (∀ x, x ∈ set_of e → x ∈ ravel pre) as Hpre.
      { intros x Hx. apply elem_of_ravel. exists e. unfold set_of in Hx. set_solver. }
      intros x Hx Hx'. apply (Hdisj x (Hpre x Hx')).
      apply elem_of_ravel. exists idx. unfold set_of in Hx. set_solver.
Qed.

(** X4: when no index occurs twice in the rows (the pairs have distinct
    ends and no two pairs share an index), [_groups_idx] returns one set
    for each row, the two indices of that row, in the order of the rows. *)
Theorem groups_idx_matching (similarity_df : DataFrame) (index : list (nat * nat)) :
  col_index similarity_df = Some index →
  NoDup (ravel index) →
  _groups_idx similarity_df = Return (set_of <$> index).
Proof.
  intros Hcol Hnd. unfold _groups_idx. rewrite Hcol. simpl. f_equal.
  by apply (group_pairs_matching_from [] index).
Qed.

Lemma groups_idx_matching_witness :
  _groups_idx two_clusters = Return [ {[2; 3]}; {[0; 1]} ].
Proof.
  apply (groups_idx_matching two_clusters [(2, 3); (0, 1)]).
  - reflexivity.
  - simpl. repeat (apply NoDup_cons; split; [set_solver|]). apply NoDup_nil_2.
Defined.

Lemma group_pairs_grown_from (index : list (nat * nat)) (group : gset nat) :
  (∀ pre idx post, index = pre ++ idx :: post →
     ¬ set_of idx ## group ∪ list_to_set (ravel pre)) →
  fold_left add_pair index [group] = [group ∪ list_to_set (ravel index)].
Proof.
  revert group. induction index as [|idx index IH]; intros group Hmeets; simpl.
  - f_equal. set_solver.
  - rewrite (add_pair_single_hit [group] idx 0 group); simpl.
    + rewrite IH.
      * f_equal. unfold set_of. set_solver.
      * intros pre idx' post Heq Hdisj.
        apply (Hmeets (idx :: pre) idx' post); [by rewrite Heq|].
        intros x Hx Hx'. apply (Hdisj x Hx).
        clear -Hx'. simpl in Hx'. unfold set_of. set_solver.
    + done.
    + intros Hdisj. apply (Hmeets [] idx index); [done|].
      intros x Hx Hx'. apply (Hdisj x Hx). clear -Hx'. simpl in Hx'. set_solver.
    + intros [|i] g Hi Hg; [done|]. by destruct i.
Qed.

(** X5: when every row but the first has an index in common with a row
    before it, [_groups_idx] returns a single set, that of all the indices
    in the rows. *)
Theorem groups_idx_grown (similarity_df : DataFrame) (index : list (nat * nat)) :
  col_index similarity_df = Some index →
  index ≠ [] →
  (∀ pre idx post, index = pre ++ idx :: post → pre ≠ [] →
     ∃ e, e ∈ pre ∧ ¬ set_of idx ## set_of e) →
  _groups_idx similarity_df = Return [list_to_set (ravel index)].
Proof.
  intros Hcol Hne Hgrown. unfold _groups_idx. rewrite Hcol. simpl. f_equal.
  destruct index as [|idx0 index]; [done|]. unfold group_pairs. simpl.
  rewrite (add_pair_no_hit [] idx0) by (intros g Hg; by apply elem_of_nil in Hg).
  simpl. rewrite group_pairs_grown_from.
  - f_equal. unfold set_of. set_solver.
  - intros pre idx post Heq Hdisj.
    destruct (Hgrown (idx0 :: pre) idx post) as (e & He & Hmeet); [by rewrite Heq|done|].
    apply Hmeet. intros x Hx Hxe. apply (Hdisj x Hx).
    apply elem_of_cons in He as [->|He]; [set_solver|].
    apply elem_of_union. right. apply elem_of_list_to_set, elem_of_ravel.
    exists e. unfold set_of in Hxe. set_solver.
Qed.

Lemma groups_idx_grown_witness :
  _groups_idx chain_reordered = Return [list_to_set (ravel [(0, 1); (1, 2); (2, 3)])].
Proof.
  apply (groups_idx_grown chain_reordered [(0, 1); (1, 2); (2, 3)]).
  - reflexivity.
  - done.
  - intros [|e1 [|e2 [|e3 pre]]] idx post Heq Hpre; simplify_eq/=.
    + exists (0, 1). split; [set_solver|].
      intros Hdisj. apply (Hdisj 1); unfold set_of; set_solver.
    + exists (1, 2). split; [set_solver|].
      intros Hdisj. apply (Hdisj 2); unfold set_of; set_solver.
    + by destruct pre.
Defined.

(** X6: a row that meets exactly one of the sets built from the rows before
    it is merged into that set: the set leaves its place and goes, with the
    two indices of the row added, to the end of the list; the other sets are
    kept as they are. *)
Theorem group_pairs_single_merge (index : list (nat * nat)) (idx : nat * nat)
    (p : nat) (group : gset nat) :
  group_pairs index !! p = Some group →
  ¬ set_of idx ## group →
  (∀ i g, i ≠ p → group_pairs index !! i = Some g → set_of idx ## g) →
  group_pairs (index ++ [idx]) = delete p (group_pairs index) ++ [group ∪ set_of idx].
Proof.
  intros Hp Hmeet Hothers. unfold group_pairs. rewrite fold_left_app. simpl.
  by apply add_pair_single_hit.
Qed.

Lemma group_pairs_single_merge_witness :
  group_pairs ([(0, 1); (2, 3)] ++ [(3, 4)])
  = delete 1 (group_pairs [(0, 1); (2, 3)]) ++ [{[2; 3]} ∪ set_of (3, 4)].
Proof.
  apply (group_pairs_single_merge [(0, 1); (2, 3)] (3, 4) 1 {[2; 3]}).
  - vm_compute. reflexivity.
  - intros Hdisj. apply (Hdisj 3); unfold set_of; set_solver.
  - assert (group_pairs [(0, 1); (2, 3)] = [ {[0; 1]}; {[2; 3]} ]) as ->
      by (vm_compute; reflexivity).
    intros [|[|i]] g Hi Hg; simplify_eq/=. unfold set_of. set_solver.
Defined.

(** ** What [_groups_df] and the driver guarantee *)

Lemma last_group_sound (groups : list (gset nat)) (l k0 k' : nat) :
  last_group groups l k0 = Some k' →
  ∃ k group, k' = k0 + k ∧ groups !! k = Some group ∧ l ∈ group.
Proof.
  revert k0. induction groups as [|g groups IH]; intros k0 Hk; simpl in Hk; [done|].
  destruct (last_group groups l (S k0)) as [k1|] eqn:Hlast.
  - simplify_eq. destruct (IH _ Hlast) as (k & group & -> & Hg & Hl).
    exists (S k), group. split; [lia|done].
  - case_decide; [|done]. simplify_eq. exists 0, g. split; [lia|done].
Qed.

Lemma last_group_complete (groups : list (gset nat)) (l k0 : nat) :
  last_group groups l k0 = None → ∀ group, group ∈ groups → l ∉ group.
Proof.
  revert k0. induction groups as [|g groups IH]; intros k0 Hk group Hin;
    [by apply elem_of_nil in Hin|].
  simpl in Hk. destruct (last_group groups l (S k0)) as [k1|] eqn:Hlast; [done|].
  case_decide; [done|]. apply elem_of_cons in Hin as [->|Hin]; [done|].
  by apply (IH (S k0)).
Qed.

Lemma labels_in_range (df : list string) (index : list (nat * nat)) (l : nat) :
  Forall (λ idx, idx.1 < length df ∧ idx.2 < length df) index →
  l ∈ ravel index → ∃ u, df !! l = Some u.
Proof.
  intros Hindex Hl. apply elem_of_ravel in Hl as (idx & Hidx & Hl).
  rewrite Forall_forall in Hindex. apply Hindex in Hidx.
  apply lookup_lt_is_Some_2. lia.
Qed.

(** X7: when every index of the rows is a label of [df], [_groups_df] returns
    one record for each index that occurs in a row, and one only, holding the
    ['uuid'] of that item; an item whose index is in no row has no record. *)
Theorem groups_df_one_record_per_item (uuid4 : nat → string)
    (similarity_df_above_threshold : DataFrame) (df : list string)
    (index : list (nat * nat)) :
  col_index similarity_df_above_threshold = Some index →
  Forall (λ idx, idx.1 < length df ∧ idx.2 < length df) index →
  ∃ out labels,
    _groups_df uuid4 similarity_df_above_threshold df = Return out ∧
    NoDup labels ∧
    (∀ l, l ∈ labels ↔ ∃ idx, idx ∈ index ∧ (l = idx.1 ∨ l = idx.2)) ∧
    Forall2 (λ r l, df !! l = Some (id r)) out labels.
Proof.
  intros Hcol Hindex. eexists. exists (elements (list_to_set (C := gset nat) (ravel index))).
  split; [by apply groups_df_returns|]. split; [apply NoDup_elements|]. split.
  - intros l. rewrite elem_of_elements, elem_of_list_to_set. apply elem_of_ravel.
  - apply Forall2_fmap_l, Forall_Forall2_diag, Forall_forall. intros l Hl. simpl.
    apply elem_of_elements, elem_of_list_to_set in Hl.
    destruct (labels_in_range df index l Hindex Hl) as [u Hu]. by rewrite Hu.
Qed.

Lemma groups_df_one_record_per_item_witness :
  ∃ out labels,
    _groups_df numbered chain_above chain_ids = Return out ∧
    NoDup labels ∧
    (∀ l, l ∈ labels ↔ ∃ idx, idx ∈ [(0, 1); (2, 3); (1, 2)] ∧ (l = idx.1 ∨ l = idx.2)) ∧
    Forall2 (λ r l, chain_ids !! l = Some (id r)) out labels.
Proof.
  apply (groups_df_one_record_per_item numbered chain_above chain_ids).
  - vm_compute. reflexivity.
  - repeat (apply Forall_cons; split; [simpl; lia|]). apply Forall_nil_2.
Defined.

(** X8: no record keeps the initial [0]: every record of [_groups_df] holds
    the identifier drawn for one of the sets of [_groups_idx], a set that
    contains the index of the record's item. *)
Theorem groups_df_identifier_of_a_group (uuid4 : nat → string)
    (similarity_df_above_threshold : DataFrame) (df : list string)
    (index : list (nat * nat)) :
  col_index similarity_df_above_threshold = Some index →
  Forall (λ idx, idx.1 < length df ∧ idx.2 < length df) index →
  ∃ out groups,
    _groups_df uuid4 similarity_df_above_threshold df = Return out ∧
    _groups_idx similarity_df_above_threshold = Return groups ∧
    ∀ r, r ∈ out →
      ∃ l k group, df !! l = Some (id r) ∧ groups !! k = Some group ∧ l ∈ group ∧
                   similarity_uuid r = VStr (uuid4 k).
Proof.
  intros Hcol Hindex. eexists. exists (group_pairs index).
  split; [by apply groups_df_returns|].
  split; [unfold _groups_idx; by rewrite Hcol|].
  intros r Hr. apply list_elem_of_fmap in Hr as (l & -> & Hl).
  apply elem_of_elements, elem_of_list_to_set in Hl.
  destruct (labels_in_range df index l Hindex Hl) as [u Hu].
  unfold assigned. simpl.
  destruct (last_group (group_pairs index) l 0) as [k'|] eqn:Hlast.
  - destruct (last_group_sound _ _ _ _ Hlast) as (k & group & -> & Hk & Hin).
    exists l, k, group. by rewrite Hu.
  - exfalso. pose proof (last_group_complete _ _ _ Hlast) as Hnone.
    assert (l ∈ ⋃ (group_pairs index)) as Hunion
      by (rewrite group_pairs_union; by apply elem_of_list_to_set).
    apply elem_of_union_list in Hunion as (group & Hgroup & Hin).
    by apply (Hnone group).
Qed.

Lemma groups_df_identifier_of_a_group_witness :
  ∃ out groups,
    _groups_df numbered chain_above chain_ids = Return out ∧
    _groups_idx chain_above = Return groups ∧
    ∀ r, r ∈ out →
      ∃ l k group, chain_ids !! l = Some (id r) ∧ groups !! k = Some group ∧ l ∈ group ∧
                   similarity_uuid r = VStr (numbered k).
Proof.
  apply (groups_df_identifier_of_a_group numbered chain_above chain_ids
           [(0, 1); (2, 3); (1, 2)]).
  - vm_compute. reflexivity.
  - repeat (apply Forall_cons; split; [simpl; lia|]). apply Forall_nil_2.
Defined.

Lemma loc_rows_raises (df : list string) (labels : list nat) (rows : list row) :
  (∃ l, l ∈ labels ∧ length df ≤ l) →
  ∃ l, l ∈ labels ∧ length df ≤ l ∧
       for_each labels (λ rows l,
         match df !! l with
         | Some u =>
             Return (rows ++ [ {| r_label := l; r_id := u; r_similarity_uuid := VInt 0 |} ])
         | None => Raise (KeyError (Label l))
         end) rows = Raise (KeyError (Label l)).
Proof.
  revert rows. induction labels as [|l0 labels IH]; intros rows (l & Hl & Hbad).
  - by apply elem_of_nil in Hl.
  - simpl. destruct (df !! l0) as [u|] eqn:Hl0.
    + destruct (IH (rows ++ [ {| r_label := l0; r_id := u; r_similarity_uuid := VInt 0 |} ]))
        as (l' & Hl' & Hbad' & Hraise).
      * exists l. split; [|done]. apply elem_of_cons in Hl as [->|Hl]; [|done].
        apply lookup_lt_Some in Hl0. lia.
      * exists l'. split; [set_solver|]. split; [done|]. exact Hraise.
    + exists l0. split; [set_solver|]. split; [|done]. by apply lookup_ge_None.
Qed.

(** X9: when a row refers to an index that is not a label of [df],
    [_groups_df] raises [KeyError] at [df.loc[...]], for a label that occurs
    in the rows and is not in [df]. *)
Theorem groups_df_unknown_label (uuid4 : nat → string)
    (similarity_df_above_threshold : DataFrame) (df : list string)
    (index : list (nat * nat)) (idx : nat * nat) :
  col_index similarity_df_above_threshold = Some index →
  idx ∈ index → length df ≤ idx.1 ∨ length df ≤ idx.2 →
  ∃ l, l ∈ ravel index ∧ length df ≤ l ∧
       _groups_df uuid4 similarity_df_above_threshold df = Raise (KeyError (Label l)).
Proof.
  intros Hcol Hidx Hbad. unfold _groups_df. rewrite Hcol. simpl. unfold loc_rows.
  destruct (loc_rows_raises df (elements (list_to_set (C := gset nat) (ravel index))) [])
    as (l & Hl & Hlen & ->).
  - destruct Hbad as [Hbad|Hbad]; [exists idx.1|exists idx.2]; (split; [|done]);
      apply elem_of_elements, elem_of_list_to_set, elem_of_ravel; exists idx; auto.
  - exists l. split; [|done]. by apply elem_of_elements, elem_of_list_to_set in Hl.
Qed.

Lemma groups_df_unknown_label_witness :
  ∃ l, l ∈ ravel [(0, 1); (2, 3); (1, 2)] ∧ length ["A"; "B"; "C"] ≤ l ∧
       _groups_df numbered chain_above ["A"; "B"; "C"] = Raise (KeyError (Label l)).
Proof.
  apply (groups_df_unknown_label numbered chain_above ["A"; "B"; "C"]
           [(0, 1); (2, 3); (1, 2)] (2, 3)).
  - vm_compute. reflexivity.
  - set_solver.
  - right. simpl. lia.
Defined.

Lemma matching_disjoint (index : list (nat * nat)) :
  NoDup (ravel index) →
  ∀ j1 j2 g1 g2, (set_of <$> index) !! j1 = Some g1 → (set_of <$> index) !! j2 = Some g2 →
                 j1 ≠ j2 → g1 ## g2.
Proof.
  induction index as [|e index IH]; intros Hnd j1 j2 g1 g2 H1 H2 Hne; [done|].
  change (ravel (e :: index)) with (e.1 :: e.2 :: ravel index) in Hnd.
  apply NoDup_cons in Hnd as [He1 Hnd]. apply NoDup_cons in Hnd as [He2 Hnd].
  assert (∀ j g, (set_of <$> index) !! j = Some g → set_of e ## g) as Hhead.
  { intros j g Hg x Hx Hxg. rewrite list_lookup_fmap in Hg.
    destruct (index !! j) as [e'|] eqn:He'; simplify_eq/=.
    assert (x ∈ ravel index) as Hin.
    { apply elem_of_ravel. exists e'. split; [by eapply list_elem_of_lookup_2|].
      unfold set_of in Hxg. set_solver. }
    unfold set_of in Hx. set_solver. }
  destruct j1 as [|j1], j2 as [|j2]; simplify_eq/=.
  - by apply (Hhead j2).
  - symmetry. by apply (Hhead j1).
  - apply (IH Hnd j1 j2); [done|done|lia].
Qed.

(** X10: when no index occurs twice in the rows, the two items of the
    [k]-th row both get the [k]-th identifier drawn. *)
Theorem groups_df_matching (uuid4 : nat → string)
    (similarity_df_above_threshold : DataFrame) (df : list string)
    (index : list (nat * nat)) :
  col_index similarity_df_above_threshold = Some index →
  Forall (λ idx, idx.1 < length df ∧ idx.2 < length df) index →
  NoDup (ravel index) →
  ∃ out,
    _groups_df uuid4 similarity_df_above_threshold df = Return out ∧
    ∀ k idx, index !! k = Some idx →
      ∃ a b, df !! idx.1 = Some a ∧ df !! idx.2 = Some b ∧
             {| id := a; similarity_uuid := VStr (uuid4 k) |} ∈ out ∧
             {| id := b; similarity_uuid := VStr (uuid4 k) |} ∈ out.
Proof.
  intros Hcol Hindex Hnd. eexists. split; [by apply groups_df_returns|].
  intros k idx Hk.
  assert (group_pairs index = set_of <$> index) as Hgroups
    by (by apply (group_pairs_matching_from [] index)).
  assert (∀ l, l ∈ set_of idx →
            ∃ u, df !! l = Some u ∧
                 {| id := u; similarity_uuid := VStr (uuid4 k) |}
                 ∈ (λ l, {| id := default "" (df !! l);
                            similarity_uuid := assigned uuid4 (group_pairs index) l |})
                     <$> elements (list_to_set (C := gset nat) (ravel index))) as Hrow.
  { intros l Hl.
    assert (l ∈ ravel index) as Hin.
    { apply elem_of_ravel. exists idx. split; [by eapply list_elem_of_lookup_2|].
      unfold set_of in Hl. set_solver. }
    destruct (labels_in_range df index l Hindex Hin) as [u Hu]. exists u. split; [done|].
    apply list_elem_of_fmap. exists l. split.
    - rewrite Hu, Hgroups. simpl. f_equal. symmetry.
      apply (assigned_disjoint uuid4 _ l k (set_of idx)); [by apply matching_disjoint| |done].
      by rewrite list_lookup_fmap, Hk.
    - by apply elem_of_elements, elem_of_list_to_set. }
  destruct (Hrow idx.1) as (a & Ha & Hina); [unfold set_of; set_solver|].
  destruct (Hrow idx.2) as (b & Hb & Hinb); [unfold set_of; set_solver|].
  by exists a, b.
Qed.

Lemma groups_df_matching_witness :
  ∃ out,
    _groups_df numbered two_clusters chain_ids = Return out ∧
    ∀ k idx, [(2, 3); (0, 1)] !! k = Some idx →
      ∃ a b, chain_ids !! idx.1 = Some a ∧ chain_ids !! idx.2 = Some b ∧
             {| id := a; similarity_uuid := VStr (numbered k) |} ∈ out ∧
             {| id := b; similarity_uuid := VStr (numbered k) |} ∈ out.
Proof.
  apply (groups_df_matching numbered two_clusters chain_ids [(2, 3); (0, 1)]).
  - reflexivity.
  - repeat (apply Forall_cons; split; [simpl; lia|]). apply Forall_nil_2.
  - simpl. repeat (apply NoDup_cons; split; [set_solver|]). apply NoDup_nil_2.
Defined.

Lemma elem_of_pairs_above (cs : Tensor) (t : Q) (idx : nat * nat) :
  idx ∈ p_index <$> filter (λ p, (t < p_score p)%Q) (sorted_reverse (enumerate_pairs cs)) ↔
  idx.1 < idx.2 < t_len cs ∧ (t < t_at cs idx.1 idx.2)%Q.
Proof.
  rewrite list_elem_of_fmap. split.
  - intros (p & -> & Hp). apply list_elem_of_filter in Hp as [Hlt Hp].
    rewrite sorted_reverse_perm in Hp. apply elem_of_enumerate_pairs in Hp as [Hij Hs].
    split; [done|]. by rewrite <- Hs.
  - intros [Hij Hlt]. exists {| p_index := idx; p_score := t_at cs idx.1 idx.2 |}.
    split; [done|]. apply list_elem_of_filter. split; [done|].
    rewrite sorted_reverse_perm. by apply elem_of_enumerate_pairs.
Qed.

(** X11: on two items or more of which no two score above the threshold, the
    driver returns the empty list (and does not raise). *)
Theorem no_similar_pair_gives_empty (uuid4 : nat → string) (df_reduced : list string)
    (cos_sim : nat → nat → Q) :
  2 ≤ length df_reduced →
  (∀ i j, i < j < length df_reduced → (cos_sim i j <= SIMILARITY_THRESHOLD)%Q) →
  compute_similarity_groups uuid4 df_reduced cos_sim = Return [].
Proof.
  intros Hn Hlow. unfold compute_similarity_groups.
  rewrite similarity_groups_at_returns by done.
  set (cs := {| t_len := length df_reduced; t_at := cos_sim |}).
  assert (p_index <$> filter (λ p, (SIMILARITY_THRESHOLD < p_score p)%Q)
                        (sorted_reverse (enumerate_pairs cs)) = []) as ->.
  { destruct (p_index <$> filter _ _) as [|idx ?] eqn:Hf; [done|]. exfalso.
    assert (idx ∈ p_index <$> filter (λ p, (SIMILARITY_THRESHOLD < p_score p)%Q)
                                (sorted_reverse (enumerate_pairs cs))) as Hin
      by (rewrite Hf; set_solver).
    apply elem_of_pairs_above in Hin as [Hij Hlt]. simpl in Hij, Hlt.
    specialize (Hlow _ _ Hij). by apply Qle_not_lt in Hlow. }
  change (ravel []) with (@nil nat). by rewrite list_to_set_nil, elements_empty.
Qed.

Lemma no_similar_pair_gives_empty_witness :
  compute_similarity_groups numbered ["A"; "B"; "C"] (λ _ _, 65 # 100) = Return [].
Proof.
  apply (no_similar_pair_gives_empty numbered ["A"; "B"; "C"] (λ _ _, 65 # 100)).
  - simpl. lia.
  - intros i j _. apply Qle_refl.
Defined.

(** X12: on two items or more the driver returns one record for each item
    that scores above the threshold with some other item, and for no other
    item; when the ['uuid'] values of the items differ, no ['id'] occurs
    twice in the result. *)
Theorem output_members (uuid4 : nat → string) (df_reduced : list string)
    (cos_sim : nat → nat → Q) :
  2 ≤ length df_reduced →
  ∃ out labels,
    compute_similarity_groups uuid4 df_reduced cos_sim = Return out ∧
    NoDup labels ∧
    Forall2 (λ r l, df_reduced !! l = Some (id r)) out labels ∧
    (∀ l, l ∈ labels ↔
          ∃ m, (l < m < length df_reduced ∧ (SIMILARITY_THRESHOLD < cos_sim l m)%Q) ∨
               (m < l < length df_reduced ∧ (SIMILARITY_THRESHOLD < cos_sim m l)%Q)) ∧
    (NoDup df_reduced → NoDup (id <$> out)).
Proof.
  intros Hn. unfold compute_similarity_groups.
  rewrite similarity_groups_at_returns by done.
  set (cs := {| t_len := length df_reduced; t_at := cos_sim |}).
  set (index := p_index <$> filter (λ p, (SIMILARITY_THRESHOLD < p_score p)%Q)
                              (sorted_reverse (enumerate_pairs cs))).
  pose proof (pairs_above_in_range cs SIMILARITY_THRESHOLD) as Hrange. fold index in Hrange.
  eexists. exists (elements (list_to_set (C := gset nat) (ravel index))).
  split; [done|]. split; [apply NoDup_elements|].
  assert (∀ l, l ∈ elements (list_to_set (C := gset nat) (ravel index)) →
               ∃ u, df_reduced !! l = Some u) as Hlabel.
  { intros l Hl. apply elem_of_elements, elem_of_list_to_set in Hl.
    by apply (labels_in_range df_reduced index). }
  split; [|split].
  - apply Forall2_fmap_l, Forall_Forall2_diag, Forall_forall. intros l Hl. simpl.
    destruct (Hlabel l Hl) as [u Hu]. by rewrite Hu.
  - intros l. rewrite elem_of_elements, elem_of_list_to_set, elem_of_ravel. split.
    + intros (idx & Hidx & Hl). apply elem_of_pairs_above in Hidx as [Hij Hlt].
      simpl in Hij, Hlt. destruct Hl as [-> | ->].
      * exists idx.2. by left.
      * exists idx.1. by right.
    + intros (m & [[Hlm Hlt]|[Hml Hlt]]).
      * exists (l, m). split; [|by left]. by apply elem_of_pairs_above.
      * exists (m, l). split; [|by right]. by apply elem_of_pairs_above.
  - intros Hnd. rewrite <- list_fmap_compose.
    apply NoDup_fmap_2_strong; [|apply NoDup_elements].
    intros l1 l2 Hl1 Hl2 Heq. simpl in Heq.
    destruct (Hlabel l1 Hl1) as [u1 Hu1]. destruct (Hlabel l2 Hl2) as [u2 Hu2].
    rewrite Hu1, Hu2 in Heq. simpl in Heq. subst.
    by eapply NoDup_lookup.
Qed.

Lemma output_members_witness :
  ∃ out labels,
    compute_similarity_groups numbered chain_ids chain_cos_sim = Return out ∧
    NoDup labels ∧
    Forall2 (λ r l, chain_ids !! l = Some (id r)) out labels ∧
    (∀ l, l ∈ labels ↔
          ∃ m, (l < m < length chain_ids ∧ (SIMILARITY_THRESHOLD < chain_cos_sim l m)%Q) ∨
               (m < l < length chain_ids ∧ (SIMILARITY_THRESHOLD < chain_cos_sim m l)%Q)) ∧
    (NoDup chain_ids → NoDup (id <$> out)).
Proof. apply (output_members numbered chain_ids chain_cos_sim). simpl. lia. Defined.

(** ** More on the dense matrix *)

(** X13: [similarity_matrix] returns a matrix exactly when [n ≤ 1] (the frame
    is then not read) or the frame has the columns ['ind1'], ['ind2'] and
    ['score']; otherwise it raises [KeyError] for the first of these columns
    that is missing. *)
Theorem similarity_matrix_returns_iff (df : DataFrame) (n : nat) :
  ((∃ m, similarity_matrix df n = Return m) ↔ n ≤ 1 ∨ missing_column df = None) ∧
  (∀ c, similarity_matrix df n = Raise (KeyError (Column c)) ↔
        2 ≤ n ∧ missing_column df = Some c).
Proof.
  assert (n ≤ 1 → ∃ m, similarity_matrix df n = Return m) as Hsmall.
  { intros Hn. destruct n as [|[|n]]; [by eexists|by eexists|lia]. }
  assert (missing_column df = None → ∃ m, similarity_matrix df n = Return m) as Hfull.
  { unfold missing_column. intros Hnone.
    destruct (col_ind1 df) as [ind1|] eqn:H1; [|done].
    destruct (col_ind2 df) as [ind2|] eqn:H2; [|done].
    destruct (col_score df) as [score|] eqn:H3; [|done].
    destruct (similarity_matrix_cells df ind1 ind2 score n H1 H2 H3) as (m & Hm & _).
    by exists m. }
  assert (∀ c, 2 ≤ n → missing_column df = Some c →
               similarity_matrix df n = Raise (KeyError (Column c))) as Hraise.
  { intros c Hn Hc. destruct n as [|[|n]]; [lia|lia|].
    unfold missing_column in Hc. unfold similarity_matrix, range. simpl.
    destruct (col_ind1 df) as [ind1|]; [|by simplify_eq].
    destruct (col_ind2 df) as [ind2|]; [|by simplify_eq].
    destruct (col_score df) as [score|]; by simplify_eq. }
  destruct (decide (n ≤ 1)) as [Hn|Hn].
  - destruct (Hsmall Hn) as [m Hm]. split.
    + split; [by left|by exists m].
    + intros c. split; [by rewrite Hm|lia].
  - destruct (missing_column df) as [c'|] eqn:Hc.
    + rewrite (Hraise c') by (done || lia). split.
      * split; [by intros [m ?]|]. intros [?|?]; [lia|done].
      * intros c. split; [intros ?; simplify_eq; split; [lia|done]|].
        by intros [_ ?]; simplify_eq.
    + destruct (Hfull eq_refl) as [m Hm]. split.
      * split; [by right|by exists m].
      * intros c. split; [by rewrite Hm|by intros [_ ?]].
Qed.

(** X14: the matrix built from the frame of [_pairs_df_model], for [n ≥ 2]
    items: every cell of the [n × n] square is written, the diagonal with
    [1] and the cells [(a, b)] and [(b, a)] with the one score
    [cosine_scores[min a b][max a b]]; no cell outside the square is. *)
Theorem similarity_matrix_after_pairs (cs : Tensor) :
  2 ≤ t_len cs →
  ∃ df m,
    _pairs_df_model cs = Return df ∧
    similarity_matrix df (t_len cs) = Return m ∧
    ∀ a b, m_get m a b
           = if decide (a < t_len cs ∧ b < t_len cs)
             then if decide (a = b) then IntCell 1
                  else ScoreCell [t_at cs (a `min` b) (a `max` b)]
             else NaN.
Proof.
  intros Hn. set (l := sorted_reverse (enumerate_pairs cs)).
  destruct (similarity_matrix_cells (pairs_frame l)
              (fst <$> (p_index <$> l)) (snd <$> (p_index <$> l)) (p_score <$> l)
              (t_len cs) eq_refl eq_refl eq_refl) as (m & Hm & Hcells).
  exists (pairs_frame l), m. split; [by apply pairs_df_model_frame|]. split; [done|].
  intros a b. rewrite Hcells. case_decide as Hab; [|done].
  unfold expected_cell. case_decide as Hne; [done|]. f_equal.
  rewrite stored_scores_filter.
  assert ({| p_index := (a `min` b, a `max` b);
             p_score := t_at cs (a `min` b) (a `max` b) |} ∈ l) as Hin.
  { unfold l. rewrite sorted_reverse_perm. apply elem_of_enumerate_pairs. simpl.
    split; [lia|done]. }
  assert (NoDup (p_index <$> l)) as Hnd.
  { unfold l. rewrite sorted_reverse_perm.
    apply sorted_index_NoDup, sorted_enumerate_pairs. }
  pose proof (filter_index_unique l _ Hnd Hin) as Hf. simpl in Hf.
  by rewrite Hf.
Qed.

Lemma similarity_matrix_after_pairs_witness :
  ∃ df m,
    _pairs_df_model chain_tensor = Return df ∧
    similarity_matrix df (t_len chain_tensor) = Return m ∧
    ∀ a b, m_get m a b
           = if decide (a < t_len chain_tensor ∧ b < t_len chain_tensor)
             then if decide (a = b) then IntCell 1
                  else ScoreCell [t_at chain_tensor (a `min` b) (a `max` b)]
             else NaN.
Proof. apply (similarity_matrix_after_pairs chain_tensor). simpl. lia. Defined.

(** ** [main] *)

(** X15: when the stages before the pair enumeration succeed and the
    preprocessed frame has fewer than two rows, [main] returns the 404
    response, with the [KeyError] of the missing ['index'] column as its
    details, and [send_messages] is not called, whatever the queue would do. *)
Theorem main_small_input (env : collaborators) (df_reduced : list string)
    (cos_sim : nat → nat → Q) :
  prepared env = inr (df_reduced, cos_sim) →
  length df_reduced < 2 →
  main env = (failure (Raised (KeyError (Column "index"))), []).
Proof.
  intros Hprepared Hn. unfold main, compute_similarity_groups, similarity_groups_at.
  rewrite Hprepared. by rewrite pairs_df_model_small by (simpl; lia).
Qed.

Lemma main_small_input_witness :
  main single_run = (failure (Raised (KeyError (Column "index"))), []).
Proof.
  apply (main_small_input single_run ["A"] chain_cos_sim).
  - reflexivity.
  - simpl. lia.
Defined.

(** X16: on two attractions or more, with a queue that can be built and that
    accepts the messages, [main] returns the 200 response and calls
    [send_messages] once, with the result of [compute_similarity_groups], the
    type ["similarity"] and batches of 50. *)
Theorem main_success (env : collaborators) (df_reduced : list string)
    (cos_sim : nat → nat → Q) :
  prepared env = inr (df_reduced, cos_sim) →
  2 ≤ length df_reduced →
  SQSQueue_init env QUEUE_URL = None →
  (∀ messages, queue_send env messages "similarity" 50 = None) →
  ∃ similarity_updates,
    compute_similarity_groups (uuid4_supply env) df_reduced cos_sim
    = Return similarity_updates ∧
    main env = (success,
                [ {| sent_url := "url"; sent_messages := similarity_updates;
                     sent_type := "similarity"; sent_batch := 50 |} ]).
Proof.
  intros Hprepared Hn Hqueue Hsend. unfold main. rewrite Hprepared.
  unfold compute_similarity_groups.
  rewrite similarity_groups_at_returns by done.
  eexists. split; [done|]. by rewrite Hqueue, Hsend.
Qed.

Lemma main_success_witness :
  ∃ similarity_updates,
    compute_similarity_groups (uuid4_supply chain_run) chain_ids chain_cos_sim
    = Return similarity_updates ∧
    main chain_run = (success,
                      [ {| sent_url := "url"; sent_messages := similarity_updates;
                           sent_type := "similarity"; sent_batch := 50 |} ]).
Proof.
  apply (main_success chain_run chain_ids chain_cos_sim).
  - reflexivity.
  - simpl. lia.
  - reflexivity.
  - reflexivity.
Defined.

(** ** The last row *)

Lemma add_pair_last (l : list (gset nat)) (idx : nat * nat) :
  ∃ l' g, add_pair l idx = l' ++ [g] ∧ set_of idx ⊆ g.
Proof.
  pose proof (scan_union idx l (length l)) as Hun. simpl in Hun.
  unfold add_pair. fold (scan_init l).
  destruct (s_was_selected _).
  - destruct Hun as [_ Hsub]. rewrite decide_True.
    + by eexists _, _.
    + pose proof (set_of_nonempty idx). pose proof (subseteq_size _ _ Hsub). lia.
  - by eexists _, _.
Qed.

(** X17: the two items of the last row always share an identifier: the last
    set [_groups_idx] returns holds both indices of the last row, and
    [_groups_df] gives both items the identifier drawn last. *)
Theorem groups_df_last_row (uuid4 : nat → string)
    (similarity_df_above_threshold : DataFrame) (df : list string)
    (index : list (nat * nat)) (idx : nat * nat) :
  col_index similarity_df_above_threshold = Some (index ++ [idx]) →
  Forall (λ idx, idx.1 < length df ∧ idx.2 < length df) (index ++ [idx]) →
  ∃ out groups group a b,
    _groups_df uuid4 similarity_df_above_threshold df = Return out ∧
    _groups_idx similarity_df_above_threshold = Return (groups ++ [group]) ∧
    idx.1 ∈ group ∧ idx.2 ∈ group ∧
    df !! idx.1 = Some a ∧ df !! idx.2 = Some b ∧
    {| id := a; similarity_uuid := VStr (uuid4 (length groups)) |} ∈ out ∧
    {| id := b; similarity_uuid := VStr (uuid4 (length groups)) |} ∈ out.
Proof.
  intros Hcol Hindex.
  destruct (add_pair_last (group_pairs index) idx) as (groups & group & Hlast & Hsub).
  assert (group_pairs (index ++ [idx]) = groups ++ [group]) as Hgroups.
  { unfold group_pairs in *. by rewrite fold_left_app. }
  assert (∀ l, l ∈ set_of idx →
            ∃ u, df !! l = Some u ∧
                 {| id := u; similarity_uuid := VStr (uuid4 (length groups)) |}
                 ∈ (λ l, {| id := default "" (df !! l);
                            similarity_uuid :=
                              assigned uuid4 (group_pairs (index ++ [idx])) l |})
                     <$> elements (list_to_set (C := gset nat) (ravel (index ++ [idx]))))
    as Hrow.
  { intros l Hl.
    assert (l ∈ ravel (index ++ [idx])) as Hin.
    { apply elem_of_ravel. exists idx. split; [set_solver|].
      unfold set_of in Hl. set_solver. }
    destruct (labels_in_range df _ l Hindex Hin) as [u Hu]. exists u. split; [done|].
    apply list_elem_of_fmap. exists l. split.
    - rewrite Hu, Hgroups. simpl. unfold assigned.
      rewrite last_group_snoc, decide_True by set_solver. done.
    - by apply elem_of_elements, elem_of_list_to_set. }
  destruct (Hrow idx.1) as (a & Ha & Hina); [unfold set_of; set_solver|].
  destruct (Hrow idx.2) as (b & Hb & Hinb); [unfold set_of; set_solver|].
  eexists _, groups, group, a, b.
  split; [by apply groups_df_returns|].
  split; [unfold _groups_idx; rewrite Hcol; simpl; by rewrite Hgroups|].
  unfold set_of in Hsub. split; [set_solver|]. split; [set_solver|]. done.
Qed.

Lemma groups_df_last_row_witness :
  ∃ out groups group a b,
    _groups_df numbered chain_above chain_ids = Return out ∧
    _groups_idx chain_above = Return (groups ++ [group]) ∧
    1 ∈ group ∧ 2 ∈ group ∧
    chain_ids !! 1 = Some a ∧ chain_ids !! 2 = Some b ∧
    {| id := a; similarity_uuid := VStr (numbered (length groups)) |} ∈ out ∧
    {| id := b; similarity_uuid := VStr (numbered (length groups)) |} ∈ out.
Proof.
  apply (groups_df_last_row numbered chain_above chain_ids [(0, 1); (2, 3)] (1, 2)).
  - vm_compute. reflexivity.
  - repeat (apply Forall_cons; split; [simpl; lia|]). apply Forall_nil_2.
Defined.

(** ** The threshold in the driver *)

(** Who gets a record, for any threshold put in the place of the constant. *)
Lemma similarity_groups_at_members (t : Q) (uuid4 : nat → string)
    (df_reduced : list string) (cos_sim : nat → nat → Q) :
  2 ≤ length df_reduced →
  ∃ out labels,
    similarity_groups_at t uuid4 df_reduced cos_sim = Return out ∧
    NoDup labels ∧
    Forall2 (λ r l, df_reduced !! l = Some (id r)) out labels ∧
    (∀ l, l ∈ labels ↔
          ∃ m, (l < m < length df_reduced ∧ (t < cos_sim l m)%Q) ∨
               (m < l < length df_reduced ∧ (t < cos_sim m l)%Q)).
Proof.
  intros Hn. rewrite similarity_groups_at_returns by done.
  set (cs := {| t_len := length df_reduced; t_at := cos_sim |}).
  set (index := p_index <$> filter (λ p, (t < p_score p)%Q)
                              (sorted_reverse (enumerate_pairs cs))).
  pose proof (pairs_above_in_range cs t) as Hrange. fold index in Hrange.
  eexists. exists (elements (list_to_set (C := gset nat) (ravel index))).
  split; [done|]. split; [apply NoDup_elements|]. split.
  - apply Forall2_fmap_l, Forall_Forall2_diag, Forall_forall. intros l Hl. simpl.
    apply elem_of_elements, elem_of_list_to_set in Hl.
    destruct (labels_in_range df_reduced index l Hrange Hl) as [u Hu]. by rewrite Hu.
  - intros l. rewrite elem_of_elements, elem_of_list_to_set, elem_of_ravel. split.
    + intros (idx & Hidx & Hl). apply elem_of_pairs_above in Hidx as [Hij Hlt].
      simpl in Hij, Hlt. destruct Hl as [-> | ->].
      * exists idx.2. by left.
      * exists idx.1. by right.
    + intros (m & [[Hlm Hlt]|[Hml Hlt]]).
      * exists (l, m). split; [|by left]. by apply elem_of_pairs_above.
      * exists (m, l). split; [|by right]. by apply elem_of_pairs_above.
Qed.

(** The result is empty exactly when no score is strictly above the
    threshold. *)
Lemma similarity_groups_at_empty_iff (t : Q) (uuid4 : nat → string)
    (df_reduced : list string) (cos_sim : nat → nat → Q) :
  2 ≤ length df_reduced →
  ∃ out,
    similarity_groups_at t uuid4 df_reduced cos_sim = Return out ∧
    (out = [] ↔ ∀ i j, i < j < length df_reduced → (cos_sim i j <= t)%Q).
Proof.
  intros Hn.
  destruct (similarity_groups_at_members t uuid4 df_reduced cos_sim Hn)
    as (out & labels & Hout & _ & Hrec & Hlabels).
  exists out. split; [done|]. split.
  - intros -> i j Hij. apply Forall2_nil_inv_l in Hrec. subst labels.
    apply Qnot_lt_le. intros Hlt.
    assert (i ∈ @nil nat) as Hin by (apply Hlabels; exists j; by left).
    by apply elem_of_nil in Hin.
  - intros Hlow. destruct labels as [|l labels].
    + by apply Forall2_nil_inv_r in Hrec.
    + exfalso. destruct (proj1 (Hlabels l)) as (m & [[Hlm Hlt]|[Hml Hlt]]); [set_solver| |].
      * specialize (Hlow l m Hlm). by apply Qle_not_lt in Hlow.
      * specialize (Hlow m l Hml). by apply Qle_not_lt in Hlow.
Qed.

(** C5: in the driver, for any threshold [t] in the place of the constant and
    two items or more, the pairs that are grouped and labelled are exactly
    the pairs of [_pairs_df_model] whose score is strictly above [t], in
    their order; an item gets a record exactly when it scores strictly above
    [t] with some other item; the result is empty exactly when no score is
    strictly above [t], so scores equal to [t] group nothing; and two items
    whose score equals [t] give the empty result. *)
Theorem threshold_filter_strict (t : Q) (uuid4 : nat → string)
    (df_reduced : list string) (cos_sim : nat → nat → Q) :
  2 ≤ length df_reduced →
  ∃ similarity_df out labels,
    _pairs_df_model {| t_len := length df_reduced; t_at := cos_sim |}
    = Return similarity_df ∧
    similarity_groups_at t uuid4 df_reduced cos_sim = Return out ∧
    (∀ above,
       col_index above
       = Some (p_index <$> filter (λ p, (t < p_score p)%Q) (records similarity_df)) →
       _groups_df uuid4 above df_reduced = Return out) ∧
    NoDup labels ∧
    Forall2 (λ r l, df_reduced !! l = Some (id r)) out labels ∧
    (∀ l, l ∈ labels ↔
          ∃ m, (l < m < length df_reduced ∧ (t < cos_sim l m)%Q) ∨
               (m < l < length df_reduced ∧ (t < cos_sim m l)%Q)) ∧
    (out = [] ↔ ∀ i j, i < j < length df_reduced → (cos_sim i j <= t)%Q) ∧
    (∀ a b cos_sim', (cos_sim' 0%nat 1%nat == t)%Q →
       similarity_groups_at t uuid4 [a; b] cos_sim' = Return []).
Proof.
  intros Hn.
  destruct (similarity_groups_at_members t uuid4 df_reduced cos_sim Hn)
    as (out & labels & Hout & Hnd & Hrec & Hlabels).
  destruct (similarity_groups_at_empty_iff t uuid4 df_reduced cos_sim Hn)
    as (out' & Hout' & Hempty).
  assert (out' = out) as -> by congruence.
  set (cs := {| t_len := length df_reduced; t_at := cos_sim |}).
  exists (pairs_frame (sorted_reverse (enumerate_pairs cs))), out, labels.
  split; [by apply pairs_df_model_frame|]. split; [done|]. split.
  { intros above Habove. rewrite records_pairs_frame in Habove.
    rewrite (groups_df_returns uuid4 above df_reduced _ Habove).
    - by rewrite <- Hout, similarity_groups_at_returns.
    - apply (pairs_above_in_range cs t). }
  do 4 (split; [done|]).
  intros a b cos_sim' Hcos.
  destruct (similarity_groups_at_empty_iff t uuid4 [a; b] cos_sim')
    as (out2 & -> & Hempty2); [simpl; lia|].
  f_equal. apply Hempty2. intros i j Hij. simpl in Hij.
  assert (i = 0 ∧ j = 1) as [-> ->] by lia. rewrite Hcos. apply Qle_refl.
Qed.

Lemma threshold_filter_strict_witness :
  ∃ similarity_df out labels,
    _pairs_df_model {| t_len := length chain_ids; t_at := chain_cos_sim |}
    = Return similarity_df ∧
    compute_similarity_groups numbered chain_ids chain_cos_sim = Return out ∧
    (∀ above,
       col_index above
       = Some (p_index <$> filter (λ p, (SIMILARITY_THRESHOLD < p_score p)%Q)
                             (records similarity_df)) →
       _groups_df numbered above chain_ids = Return out) ∧
    NoDup labels ∧
    Forall2 (λ r l, chain_ids !! l = Some (id r)) out labels ∧
    (∀ l, l ∈ labels ↔
          ∃ m, (l < m < length chain_ids ∧ (SIMILARITY_THRESHOLD < chain_cos_sim l m)%Q) ∨
               (m < l < length chain_ids ∧ (SIMILARITY_THRESHOLD < chain_cos_sim m l)%Q)) ∧
    (out = [] ↔
     ∀ i j, i < j < length chain_ids → (chain_cos_sim i j <= SIMILARITY_THRESHOLD)%Q) ∧
    (∀ a b cos_sim', (cos_sim' 0%nat 1%nat == SIMILARITY_THRESHOLD)%Q →
       similarity_groups_at SIMILARITY_THRESHOLD numbered [a; b] cos_sim' = Return []).
Proof.
  apply (threshold_filter_strict SIMILARITY_THRESHOLD numbered chain_ids chain_cos_sim).
  simpl. lia.
Defined.

(** ** No threshold parameter *)

Lemma bind_keywords_unknown (params : list string) (bound kwargs : list (string * pyvalue))
    (name : string) (v : pyvalue) :
  (name, v) ∈ kwargs → name ∉ params → bind_keywords params bound kwargs = None.
Proof.
  intros Hin Hname. revert bound.
  induction kwargs as [|[name' v'] kwargs IH]; intros bound; [by apply elem_of_nil in Hin|].
  simpl. case_decide as Hparam; [|done].
  case_decide; [done|]. apply IH.
  apply elem_of_cons in Hin as [Heq|Hin]; [|done]. by simplify_eq.
Qed.

(** A threshold passed in the call, inside the range or outside it, as a
    second argument or by name: the call raises [TypeError]. *)
Lemma threshold_argument_rejected :
  (-1 <= 1 # 2)%Q ∧ (1 # 2 <= 1)%Q ∧ (1 < 2)%Q ∧
  call_compute_similarity_groups numbered
    [Attractions chain_ids chain_cos_sim; Float (1 # 2)] [] = TypeError ∧
  call_compute_similarity_groups numbered
    [Attractions chain_ids chain_cos_sim] [("threshold", Float (1 # 2))] = TypeError ∧
  call_compute_similarity_groups numbered
    [Attractions chain_ids chain_cos_sim; Float 2] [] = TypeError ∧
  call_compute_similarity_groups numbered
    [Attractions chain_ids chain_cos_sim] [("threshold", Float 2)] = TypeError.
Proof. repeat split; vm_compute; congruence. Qed.

(** C9, as the code has it: [compute_similarity_groups] has the one parameter
    [attractions] and no threshold parameter. A call with a second positional
    argument, or with a keyword argument other than [attractions], raises
    [TypeError], whatever the value passed; and a call with two attractions or
    more and nothing else runs with the constant 0.65 of the module as its
    threshold: it returns, and its result is empty exactly when no score is
    above 65/100. *)
Theorem no_threshold_parameter (uuid4 : nat → string) (uuid : list string)
    (cos_sim : nat → nat → Q) :
  2 ≤ length uuid →
  (∀ args kwargs,
     2 ≤ length args ∨ (∃ name v, (name, v) ∈ kwargs ∧ name ≠ "attractions") →
     call_compute_similarity_groups uuid4 args kwargs = TypeError) ∧
  (∀ x, call_compute_similarity_groups uuid4 [Attractions uuid cos_sim; Float x] []
        = TypeError) ∧
  (∀ x, call_compute_similarity_groups uuid4 [Attractions uuid cos_sim]
          [("threshold", Float x)] = TypeError) ∧
  ∃ out,
    call_compute_similarity_groups uuid4 [Attractions uuid cos_sim] []
    = Completed (Return out) ∧
    (out = [] ↔ ∀ i j, i < j < length uuid → (cos_sim i j <= 65 # 100)%Q).
Proof.
  intros Hn.
  assert (∀ args kwargs,
            2 ≤ length args ∨ (∃ name v, (name, v) ∈ kwargs ∧ name ≠ "attractions") →
            call_compute_similarity_groups uuid4 args kwargs = TypeError) as Hreject.
  { intros args kwargs Hbad. unfold call_compute_similarity_groups, bind_arguments.
    case_decide as Hlen; [done|].
    destruct Hbad as [Hargs|(name & v & Hin & Hname)]; [simpl in Hlen; lia|].
    rewrite (bind_keywords_unknown _ _ _ name v); [done|done|].
    intros Hparam. apply list_elem_of_singleton in Hparam. done. }
  split; [done|]. split; [|split].
  - intros x. apply Hreject. left. simpl. lia.
  - intros x. apply Hreject. right. exists "threshold", (Float x). split; [set_solver|done].
  - destruct (similarity_groups_at_empty_iff SIMILARITY_THRESHOLD uuid4 uuid cos_sim Hn)
      as (out & Hout & Hempty).
    exists out. split; [|done].
    change (call_compute_similarity_groups uuid4 [Attractions uuid cos_sim] [])
      with (Completed (compute_similarity_groups uuid4 uuid cos_sim)).
    unfold compute_similarity_groups. by rewrite Hout.
Qed.

Lemma no_threshold_parameter_witness :
  2 ≤ length chain_ids ∧
  (∀ args kwargs,
     2 ≤ length args ∨ (∃ name v, (name, v) ∈ kwargs ∧ name ≠ "attractions") →
     call_compute_similarity_groups numbered args kwargs = TypeError) ∧
  (∀ x, call_compute_similarity_groups numbered
          [Attractions chain_ids chain_cos_sim; Float x] [] = TypeError) ∧
  (∀ x, call_compute_similarity_groups numbered [Attractions chain_ids chain_cos_sim]
          [("threshold", Float x)] = TypeError) ∧
  ∃ out,
    call_compute_similarity_groups numbered [Attractions chain_ids chain_cos_sim] []
    = Completed (Return out) ∧
    (out = [] ↔
     ∀ i j, i < j < length chain_ids → (chain_cos_sim i j <= 65 # 100)%Q).
Proof.
  split; [simpl; lia|].
  apply (no_threshold_parameter numbered chain_ids chain_cos_sim). simpl. lia.
Defined.
